(** * mtftable: a table on a move-to-front list

    Shallow embedding of [mtftable.c].  The table is a C struct holding a
    directed list ([dlist]) of heap-allocated [TableElement]s; [table_lookup]
    relinks the cells of that list by hand.  Because the relinking is pointer
    surgery whose outcome depends on which cells coincide, the embedding keeps
    the C heap explicit: a finite map from addresses to cells, threaded through
    a state-and-fault monad. *)

From Stdlib Require Import ZArith Lia List.
From stdpp Require Import base option list gmap.

Local Open Scope Z_scope.

(** ** Pointers, callbacks, heap cells *)

Abbreviation ptr := Z (only parsing).
Definition NULL : ptr := 0.

(** [KEY] and [VALUE] are [void *] in [table.h]. *)
Abbreviation KEY := ptr (only parsing).
Abbreviation VALUE := ptr (only parsing).

(** The comparator, an [int]-valued function of two keys; only whether the
    result is zero is ever used. *)
Definition CompareFunction := KEY -> KEY -> Z.

(** A pointer to a deallocation callback.  [FLibcFree] is the C library's
    [free], the only callback whose effect on the modelled heap is known;
    [FUser id] is any caller-supplied function. *)
Inductive funptr :=
| FNull
| FLibcFree
| FUser (id : Z).

Definition is_null_fn (f : funptr) : bool :=
  match f with FNull => true | _ => false end.

(** One allocated object.  The four struct shapes are the ones the program
    allocates: [MyTable], [dlist] (the list header), a list cell, and
    [TableElement]. *)
Inductive cell :=
| CTable (values : ptr) (cf : option CompareFunction) (keyFree valueFree : funptr)
| CList (head : ptr) (freeFunc : funptr)
| CNode (next : ptr) (data : ptr)
| CElem (key : KEY) (value : VALUE).

(** Calls that leave the module, in program order. *)
Inductive event :=
| EvCompare (entry_key lookup_key : KEY)
| EvKeyFree (f : funptr) (k : KEY)
| EvValueFree (f : funptr) (v : VALUE)
| EvMemHandler (f : funptr) (d : ptr).

Definition is_destructor_call (e : event) : bool :=
  match e with
  | EvKeyFree _ _ | EvValueFree _ _ => true
  | _ => false
  end.

Definition is_compare_call (e : event) : bool :=
  match e with EvCompare _ _ => true | _ => false end.

Record state := State {
  heap : gmap Z cell;      (* allocated objects *)
  brk : Z;                 (* next address malloc hands out *)
  quota : nat;             (* objects malloc can still provide *)
  trace : list event       (* external calls made so far *)
}.

Inductive fault :=
| NullDeref      (* access through NULL *)
| WildDeref      (* access to an address that is not allocated *)
| WrongShape     (* field access on an object of another struct type *)
| BadFree        (* free of an address that is not allocated *)
| NullCall.      (* call through a NULL function pointer *)

Inductive outcome (A : Type) :=
| Done (a : A) (s : state)
| Fault (f : fault)
| OutOfFuel.
Arguments Done {A} a s.
Arguments Fault {A} f.
Arguments OutOfFuel {A}.

(** ** The state-and-fault monad *)

Definition M (A : Type) := state -> outcome A.

Definition ret {A} (a : A) : M A := fun s => Done a s.

Definition bind {A B} (m : M A) (k : A -> M B) : M B :=
  fun s => match m s with
           | Done a s' => k a s'
           | Fault f => Fault f
           | OutOfFuel => OutOfFuel
           end.

Definition raise {A} (f : fault) : M A := fun _ => Fault f.

Declare Scope c_scope.
Delimit Scope c_scope with C.
Notation "x <- m ;; k" := (bind m (fun x => k))
  (at level 100, m at next level, right associativity) : c_scope.
Notation "m ;;; k" := (bind m (fun _ => k))
  (at level 100, right associativity) : c_scope.
Local Open Scope c_scope.

Definition set_heap (h : gmap Z cell) (s : state) : state :=
  {| heap := h; brk := brk s; quota := quota s; trace := trace s |}.

Definition log (evs : list event) (s : state) : state :=
  {| heap := heap s; brk := brk s; quota := quota s; trace := trace s ++ evs |}.

Definition emit (e : event) : M unit := fun s => Done tt (log [e] s).

(** ** Memory primitives *)

Definition load (a : ptr) : M cell :=
  fun s => if a =? NULL then Fault NullDeref
           else match heap s !! a with
                | Some c => Done c s
                | None => Fault WildDeref
                end.

Definition store (a : ptr) (c : cell) : M unit :=
  fun s => if a =? NULL then Fault NullDeref
           else match heap s !! a with
                | Some _ => Done tt (set_heap (<[a := c]> (heap s)) s)
                | None => Fault WildDeref
                end.

(** [malloc]/[calloc]: NULL when memory is exhausted, otherwise a fresh
    object of the requested struct type.  [init] gives the fields of the new
    object: all-zero for [calloc]; for [malloc] the contents are
    indeterminate and every caller below overwrites them before reading. *)
Definition malloc (init : cell) : M ptr :=
  fun s => match quota s with
           | O => Done NULL s
           | S q => Done (brk s)
                      {| heap := <[brk s := init]> (heap s);
                         brk := brk s + 1;
                         quota := q;
                         trace := trace s |}
           end.

Definition free (a : ptr) : M unit :=
  fun s => if a =? NULL then Done tt s
           else match heap s !! a with
                | Some _ => Done tt {| heap := delete a (heap s);
                                       brk := brk s;
                                       quota := S (quota s);
                                       trace := trace s |}
                | None => Fault BadFree
                end.

(** ** Field access *)

Definition get_values (t : ptr) : M ptr :=
  c <- load t ;;
  match c with CTable l _ _ _ => ret l | _ => raise WrongShape end.
Definition get_cf (t : ptr) : M (option CompareFunction) :=
  c <- load t ;;
  match c with CTable _ f _ _ => ret f | _ => raise WrongShape end.
Definition get_keyFree (t : ptr) : M funptr :=
  c <- load t ;;
  match c with CTable _ _ kf _ => ret kf | _ => raise WrongShape end.
Definition get_valueFree (t : ptr) : M funptr :=
  c <- load t ;;
  match c with CTable _ _ _ vf => ret vf | _ => raise WrongShape end.

Definition set_values (t : ptr) (l : ptr) : M unit :=
  c <- load t ;;
  match c with CTable _ f kf vf => store t (CTable l f kf vf) | _ => raise WrongShape end.
Definition set_cf (t : ptr) (f : option CompareFunction) : M unit :=
  c <- load t ;;
  match c with CTable l _ kf vf => store t (CTable l f kf vf) | _ => raise WrongShape end.
Definition set_keyFree (t : ptr) (kf : funptr) : M unit :=
  c <- load t ;;
  match c with CTable l f _ vf => store t (CTable l f kf vf) | _ => raise WrongShape end.
Definition set_valueFree (t : ptr) (vf : funptr) : M unit :=
  c <- load t ;;
  match c with CTable l f kf _ => store t (CTable l f kf vf) | _ => raise WrongShape end.

Definition get_head (l : ptr) : M ptr :=
  c <- load l ;;
  match c with CList h _ => ret h | _ => raise WrongShape end.
Definition get_freeFunc (l : ptr) : M funptr :=
  c <- load l ;;
  match c with CList _ f => ret f | _ => raise WrongShape end.
Definition set_head (l : ptr) (h : ptr) : M unit :=
  c <- load l ;;
  match c with CList _ f => store l (CList h f) | _ => raise WrongShape end.
Definition set_freeFunc (l : ptr) (f : funptr) : M unit :=
  c <- load l ;;
  match c with CList h _ => store l (CList h f) | _ => raise WrongShape end.

Definition get_next (p : ptr) : M ptr :=
  c <- load p ;;
  match c with CNode n _ => ret n | _ => raise WrongShape end.
Definition get_data (p : ptr) : M ptr :=
  c <- load p ;;
  match c with CNode _ d => ret d | _ => raise WrongShape end.
Definition set_next (p : ptr) (n : ptr) : M unit :=
  c <- load p ;;
  match c with CNode _ d => store p (CNode n d) | _ => raise WrongShape end.
Definition set_data (p : ptr) (d : ptr) : M unit :=
  c <- load p ;;
  match c with CNode n _ => store p (CNode n d) | _ => raise WrongShape end.

Definition get_key (e : ptr) : M KEY :=
  c <- load e ;;
  match c with CElem k _ => ret k | _ => raise WrongShape end.
Definition get_value (e : ptr) : M VALUE :=
  c <- load e ;;
  match c with CElem _ v => ret v | _ => raise WrongShape end.
Definition set_key (e : ptr) (k : KEY) : M unit :=
  c <- load e ;;
  match c with CElem _ v => store e (CElem k v) | _ => raise WrongShape end.
Definition set_value (e : ptr) (v : VALUE) : M unit :=
  c <- load e ;;
  match c with CElem k _ => store e (CElem k v) | _ => raise WrongShape end.

(** ** Calls through function pointers *)

(** [t->cf(a, b)]: the comparator is a pure function of the two keys; the
    call is recorded. *)
Definition call_cf (t : ptr) (a b : KEY) : M Z :=
  f <- get_cf t ;;
  match f with
  | None => raise NullCall
  | Some cmp => emit (EvCompare a b) ;;; ret (cmp a b)
  end.

(** A list memory handler applied to a payload.  [free] releases the
    payload object; any other handler is an external call. *)
Definition call_memhandler (f : funptr) (d : ptr) : M unit :=
  match f with
  | FNull => raise NullCall
  | FLibcFree => free d
  | FUser _ => emit (EvMemHandler f d)
  end.

(** ** The directed list [dlist] *)

Module dlist.

(** Modelled from the spec: [dlist.c] is not part of the sources.  The spec
    describes the sequence as sentinel-headed with a physical/logical position
    split: a position is the cell physically preceding the entry it denotes,
    the first position is the head sentinel, and [table_lookup] itself relies
    on exactly that ([p->next] is the matching cell, [head->next] the first
    cell).  create-empty: *)
Definition dlist_empty : M ptr :=
  l <- malloc (CList NULL FNull) ;;
  h <- malloc (CNode NULL NULL) ;;
  set_head l h ;;;
  set_next h NULL ;;;
  set_freeFunc l FNull ;;;
  ret l.

(** Modelled from the spec: installs the per-payload cleanup callback. *)
Definition dlist_setMemHandler (l : ptr) (f : funptr) : M unit :=
  set_freeFunc l f.

(** Modelled from the spec: the first position is the head sentinel. *)
Definition dlist_first (l : ptr) : M ptr := get_head l.

(** Modelled from the spec: advance-position. *)
Definition dlist_next (l : ptr) (p : ptr) : M ptr := get_next p.

(** Modelled from the spec: is-end, no entry follows position [p]. *)
Definition dlist_isEnd (l : ptr) (p : ptr) : M bool :=
  n <- get_next p ;; ret (n =? NULL).

(** Modelled from the spec: is-empty, no entry follows the head sentinel. *)
Definition dlist_isEmpty (l : ptr) : M bool :=
  h <- get_head l ;;
  n <- get_next h ;;
  ret (n =? NULL).

(** Modelled from the spec: inspect-at-position, the payload of the cell
    after [p]. *)
Definition dlist_inspect (l : ptr) (p : ptr) : M ptr :=
  n <- get_next p ;; get_data n.

(** Modelled from the spec: insert-before-position, a new cell linked in
    directly after the physical cell [p]. *)
Definition dlist_insert (l : ptr) (p : ptr) (d : ptr) : M ptr :=
  n <- malloc (CNode NULL NULL) ;;
  set_data n d ;;;
  pn <- get_next p ;;
  set_next n pn ;;;
  set_next p n ;;;
  ret p.

(** Modelled from the spec: remove-at-position; unlinks the cell after [p],
    hands its payload to the memory handler if one is installed, releases
    the cell and returns the next valid position, which is [p] again. *)
Definition dlist_remove (l : ptr) (p : ptr) : M ptr :=
  temp <- get_next p ;;
  tn <- get_next temp ;;
  set_next p tn ;;;
  f <- get_freeFunc l ;;
  (if is_null_fn f then ret tt
   else d <- get_data temp ;; call_memhandler f d) ;;;
  free temp ;;;
  ret p.

Fixpoint dlist_free_loop (fuel : nat) (l : ptr) (p : ptr) : M unit :=
  match fuel with
  | O => fun _ => OutOfFuel
  | S fuel' =>
      e <- dlist_isEnd l p ;;
      if e : bool then ret tt
      else p' <- dlist_remove l p ;; dlist_free_loop fuel' l p'
  end.

(** Modelled from the spec: bulk free, every remaining cell is removed, then
    the head sentinel and the list header are released. *)
Definition dlist_free (fuel : nat) (l : ptr) : M unit :=
  p <- dlist_first l ;;
  dlist_free_loop fuel l p ;;;
  h <- get_head l ;;
  free h ;;;
  free l.

End dlist.
Import dlist.

(** ** The table *)

(** [calloc(sizeof (MyTable), 1)] zeroes the struct, so all four fields
    start out NULL. *)
Definition table_create (compare_function : CompareFunction) : M ptr :=
  t <- malloc (CTable NULL None FNull FNull) ;;
  if t =? NULL then ret NULL
  else
    l <- dlist_empty ;;
    set_values t l ;;;
    l <- get_values t ;;
    dlist_setMemHandler l FLibcFree ;;;
    set_cf t (Some compare_function) ;;;
    ret t.

Definition table_setKeyMemHandler (table : ptr) (freeFunc : funptr) : M unit :=
  set_keyFree table freeFunc.

Definition table_setValueMemHandler (table : ptr) (freeFunc : funptr) : M unit :=
  set_valueFree table freeFunc.

Definition table_isEmpty (table : ptr) : M bool :=
  l <- get_values table ;;
  dlist_isEmpty l.

(** The result of [malloc] is used unchecked. *)
Definition table_insert (table : ptr) (key : KEY) (value : VALUE) : M unit :=
  e <- malloc (CElem NULL NULL) ;;
  set_key e key ;;;
  set_value e value ;;;
  l <- get_values table ;;
  first <- dlist_first l ;;
  dlist_insert l first e ;;;
  ret tt.

(** The body of the [if] in [table_lookup]: three pointer stores that hook
    the cell after [p] in behind the head. *)
Definition relink (t : ptr) (p : ptr) : M unit :=
  pn <- get_next p ;;
  temp1 <- get_next pn ;;
  l <- get_values t ;;
  h <- get_head l ;;
  temp2 <- get_next h ;;
  pn <- get_next p ;;
  l <- get_values t ;;
  h <- get_head l ;;
  set_next h pn ;;;
  pn <- get_next p ;;
  set_next pn temp2 ;;;
  set_next p temp1.

Fixpoint table_lookup_loop (fuel : nat) (t : ptr) (key : KEY) (p : ptr) : M VALUE :=
  match fuel with
  | O => fun _ => OutOfFuel
  | S fuel' =>
      l <- get_values t ;;
      e <- dlist_isEnd l p ;;
      if e : bool then ret NULL
      else
        i <- dlist_inspect l p ;;
        ik <- get_key i ;;
        c <- call_cf t ik key ;;
        if c =? 0 then
          relink t p ;;;
          get_value i
        else
          p' <- dlist_next l p ;;
          table_lookup_loop fuel' t key p'
  end.

Definition table_lookup (fuel : nat) (table : ptr) (key : KEY) : M VALUE :=
  l <- get_values table ;;
  p <- dlist_first l ;;
  table_lookup_loop fuel table key p.

(** [if (f != NULL) f(x)] for the two optional destructors. *)
Definition free_key (t : ptr) (k : KEY) : M unit :=
  kf <- get_keyFree t ;;
  if is_null_fn kf then ret tt else emit (EvKeyFree kf k).

Definition free_value (t : ptr) (v : VALUE) : M unit :=
  vf <- get_valueFree t ;;
  if is_null_fn vf then ret tt else emit (EvValueFree vf v).

Fixpoint table_remove_loop (fuel : nat) (t : ptr) (key : KEY) (p : ptr) : M unit :=
  match fuel with
  | O => fun _ => OutOfFuel
  | S fuel' =>
      l <- get_values t ;;
      e <- dlist_isEnd l p ;;
      if e : bool then ret tt
      else
        i <- dlist_inspect l p ;;
        ik <- get_key i ;;
        c <- call_cf t ik key ;;
        if c =? 0 then
          free_key t ik ;;;
          iv <- get_value i ;;
          free_value t iv ;;;
          p' <- dlist_remove l p ;;
          table_remove_loop fuel' t key p'
        else
          p' <- dlist_next l p ;;
          table_remove_loop fuel' t key p'
  end.

Definition table_remove (fuel : nat) (table : ptr) (key : KEY) : M unit :=
  l <- get_values table ;;
  p <- dlist_first l ;;
  table_remove_loop fuel table key p.

Fixpoint table_free_loop (fuel : nat) (t : ptr) (p : ptr) : M unit :=
  match fuel with
  | O => fun _ => OutOfFuel
  | S fuel' =>
      l <- get_values t ;;
      e <- dlist_isEnd l p ;;
      if e : bool then ret tt
      else
        i <- dlist_inspect l p ;;
        ik <- get_key i ;;
        free_key t ik ;;;
        iv <- get_value i ;;
        free_value t iv ;;;
        p' <- dlist_remove l p ;;
        table_free_loop fuel' t p'
  end.

Definition table_free (fuel : nat) (table : ptr) : M unit :=
  l <- get_values table ;;
  p <- dlist_first l ;;
  table_free_loop fuel table p ;;;
  l <- get_values table ;;
  dlist_free fuel l ;;;
  free table.

(** ** Reading a table off the heap *)

(** An executable view of the table: the (key, value) pairs found by
    following [next] from the cell after the head sentinel. *)
Fixpoint walk (fuel : nat) (h : gmap Z cell) (p : ptr) : option (list (KEY * VALUE)) :=
  match fuel with
  | O => None
  | S fuel' =>
      if p =? NULL then Some []
      else match h !! p with
           | Some (CNode n d) =>
               match h !! d with
               | Some (CElem k v) =>
                   match walk fuel' h n with
                   | Some es => Some ((k, v) :: es)
                   | None => None
                   end
               | _ => None
               end
           | _ => None
           end
  end.

Definition contents (fuel : nat) (t : ptr) (s : state) : option (list (KEY * VALUE)) :=
  match heap s !! t with
  | Some (CTable l _ _ _) =>
      match heap s !! l with
      | Some (CList h _) =>
          match heap s !! h with
          | Some (CNode n _) => walk fuel (heap s) n
          | _ => None
          end
      | _ => None
      end
  | _ => None
  end.

(** One entry as it sits in memory: the list cell, the [TableElement] it
    points to, and the pair stored there. *)
Record entry_cell := EntryCell {
  c_addr : ptr;
  c_data : ptr;
  c_key : KEY;
  c_value : VALUE
}.

Definition entry_of (c : entry_cell) : KEY * VALUE := (c_key c, c_value c).

(** [chain h p cs q]: starting at address [p], the heap holds exactly the
    cells [cs], linked in this order, and the last one points to [q]. *)
Fixpoint chain (h : gmap Z cell) (p : ptr) (cs : list entry_cell) (q : ptr) : Prop :=
  match cs with
  | [] => p = q
  | c :: cs' =>
      p = c_addr c /\ p <> NULL /\ c_data c <> NULL /\
      h !! c_data c = Some (CElem (c_key c) (c_value c)) /\
      exists n, h !! p = Some (CNode n (c_data c)) /\ chain h n cs' q
  end.

(** Allocator invariant: everything allocated lies strictly between NULL
    and the break. *)
Definition heap_ok (s : state) : Prop :=
  0 < brk s /\ map_Forall (fun a _ => 0 < a < brk s) (heap s).

Record table_rep (s : state) (t : ptr) (cmp : CompareFunction)
    (kf vf : funptr) (l hd jd first : ptr) (cs : list entry_cell) : Prop := {
  rep_heap_ok : heap_ok s;
  rep_t_nonnull : t <> NULL;
  rep_table : heap s !! t = Some (CTable l (Some cmp) kf vf);
  rep_l_nonnull : l <> NULL;
  rep_list : heap s !! l = Some (CList hd FLibcFree);
  rep_hd_nonnull : hd <> NULL;
  rep_head : heap s !! hd = Some (CNode first jd);
  rep_chain : chain (heap s) first cs NULL;
  rep_nodup_cells : NoDup (hd :: fmap c_addr cs);
  rep_nodup_data : NoDup (fmap c_data cs)
}.

(** [table_is s t cmp kf vf es]: in state [s], [t] is a well-formed table
    with comparator [cmp], destructors [kf] and [vf] (possibly NULL), holding
    the entries [es] from front to back. *)
Definition table_is (s : state) (t : ptr) (cmp : CompareFunction)
    (kf vf : funptr) (es : list (KEY * VALUE)) : Prop :=
  exists l hd jd first cs,
    table_rep s t cmp kf vf l hd jd first cs /\ es = fmap entry_of cs.

(** Whether an entry matches a key: the test [t->cf(i->key, key) == 0]. *)
Definition matches (cmp : CompareFunction) (key : KEY) (e : KEY * VALUE) : bool :=
  cmp e.1 key =? 0.

(** The destructor calls made for one entry that is being discarded. *)
Definition destroy_events (kf vf : funptr) (e : KEY * VALUE) : list event :=
  (if is_null_fn kf then [] else [EvKeyFree kf e.1]) ++
  (if is_null_fn vf then [] else [EvValueFree vf e.2]).

(** The external calls [table_remove] makes while visiting one entry. *)
Definition remove_events (cmp : CompareFunction) (kf vf : funptr) (key : KEY)
    (e : KEY * VALUE) : list event :=
  EvCompare e.1 key ::
  (if matches cmp key e then destroy_events kf vf e else []).

Definition compare_events (key : KEY) (es : list (KEY * VALUE)) : list event :=
  fmap (fun e => EvCompare e.1 key) es.

(** An entry cell whose key does not compare equal to [key]. *)
Definition no_match (cmp : CompareFunction) (key : KEY) (c : entry_cell) : Prop :=
  matches cmp key (entry_of c) = false.

(** Entries that [table_remove] leaves in place. *)
Definition survives (cmp : CompareFunction) (key : KEY) (e : KEY * VALUE) : Prop :=
  matches cmp key e = false.

#[global] Instance survives_dec cmp key e : Decision (survives cmp key e).
Proof. unfold survives. apply _. Defined.

#[global] Instance heap_ok_dec s : Decision (heap_ok s).
Proof. unfold heap_ok. apply _. Defined.

(** The state after the entry [c] behind position [p] has been discarded. *)
Definition discarded (kf vf : funptr) (p dp n : ptr) (c : entry_cell) (s : state) : state :=
  {| heap := delete (c_addr c) (delete (c_data c) (<[p := CNode n dp]> (heap s)));
     brk := brk s;
     quota := S (S (quota s));
     trace := trace s ++ destroy_events kf vf (entry_of c) |}.

(** ** A list program with the same interface

    What the table does, written on the list of its entries.  [list_lookup]
    follows [table_lookup] as it is: a match behind other entries is moved to
    the front, a match that is already at the front is taken out. *)

Fixpoint first_match (cmp : CompareFunction) (key : KEY) (es : list (KEY * VALUE))
    : option (list (KEY * VALUE) * (KEY * VALUE) * list (KEY * VALUE)) :=
  match es with
  | [] => None
  | e :: es' =>
      if matches cmp key e then Some ([], e, es')
      else match first_match cmp key es' with
           | Some (skipped, m, rest) => Some (e :: skipped, m, rest)
           | None => None
           end
  end.

Definition list_lookup (cmp : CompareFunction) (key : KEY) (es : list (KEY * VALUE))
    : VALUE * list (KEY * VALUE) :=
  match first_match cmp key es with
  | None => (NULL, es)
  | Some ([], m, rest) => (m.2, rest)
  | Some (skipped, m, rest) => (m.2, m :: skipped ++ rest)
  end.

(** One call of a client on its table, and what it gets back. *)
Inductive call :=
| CallInsert (k : KEY) (v : VALUE)
| CallLookup (k : KEY)
| CallRemove (k : KEY)
| CallIsEmpty
| CallSetKeyMemHandler (f : funptr)
| CallSetValueMemHandler (f : funptr).

Inductive answer :=
| AnsVoid
| AnsValue (v : VALUE)
| AnsBool (b : bool).

Definition run_call (fuel : nat) (t : ptr) (c : call) : M answer :=
  match c with
  | CallInsert k v => table_insert t k v ;;; ret AnsVoid
  | CallLookup k => v <- table_lookup fuel t k ;; ret (AnsValue v)
  | CallRemove k => table_remove fuel t k ;;; ret AnsVoid
  | CallIsEmpty => b <- table_isEmpty t ;; ret (AnsBool b)
  | CallSetKeyMemHandler f => table_setKeyMemHandler t f ;;; ret AnsVoid
  | CallSetValueMemHandler f => table_setValueMemHandler t f ;;; ret AnsVoid
  end.

Fixpoint run_calls (fuel : nat) (t : ptr) (cs : list call) : M (list answer) :=
  match cs with
  | [] => ret []
  | c :: cs' =>
      a <- run_call fuel t c ;;
      rest <- run_calls fuel t cs' ;;
      ret (a :: rest)
  end.

(** The list program's state: the two destructors and the entries. *)
Record ltable := LTable {
  l_keyFree : funptr;
  l_valueFree : funptr;
  l_entries : list (KEY * VALUE)
}.

Definition list_call (cmp : CompareFunction) (c : call) (m : ltable) : answer * ltable :=
  match c with
  | CallInsert k v =>
      (AnsVoid, LTable (l_keyFree m) (l_valueFree m) ((k, v) :: l_entries m))
  | CallLookup k =>
      let r := list_lookup cmp k (l_entries m) in
      (AnsValue r.1, LTable (l_keyFree m) (l_valueFree m) r.2)
  | CallRemove k =>
      (AnsVoid, LTable (l_keyFree m) (l_valueFree m) (filter (survives cmp k) (l_entries m)))
  | CallIsEmpty =>
      (AnsBool (match l_entries m with [] => true | _ => false end), m)
  | CallSetKeyMemHandler f =>
      (AnsVoid, LTable f (l_valueFree m) (l_entries m))
  | CallSetValueMemHandler f =>
      (AnsVoid, LTable (l_keyFree m) f (l_entries m))
  end.

Fixpoint list_calls (cmp : CompareFunction) (cs : list call) (m : ltable)
    : list answer * ltable :=
  match cs with
  | [] => ([], m)
  | c :: cs' =>
      let r := list_call cmp c m in
      let rs := list_calls cmp cs' r.2 in
      (r.1 :: rs.1, rs.2)
  end.

(** How many of the calls allocate. *)
Fixpoint inserts (cs : list call) : nat :=
  match cs with
  | [] => 0
  | CallInsert _ _ :: cs' => S (inserts cs')
  | _ :: cs' => inserts cs'
  end.

(** ** Scenario data *)

Module Scenario.

(** A numeric comparator on keys. *)
Definition numcmp : CompareFunction := fun a b => a - b.

(** The values ["a"], ["b"], ["c"], as addresses of the three strings. *)
Definition str_a : VALUE := 97.
Definition str_b : VALUE := 98.
Definition str_c : VALUE := 99.

Definition boot : state :=
  {| heap := ∅; brk := 1; quota := 32; trace := [] |}.

(** Scenario A: create, then insert (1,"a"), (2,"b"), (3,"c"). *)
Definition scenario_A : M ptr :=
  t <- table_create numcmp ;;
  table_insert t 1 str_a ;;;
  table_insert t 2 str_b ;;;
  table_insert t 3 str_c ;;;
  ret t.

Definition state_of {A} (o : outcome A) : state :=
  match o with Done _ s => s | _ => boot end.

Definition result_of {A} (o : outcome A) : option A :=
  match o with Done a _ => Some a | _ => None end.

(** The state after scenario A; the table sits at address 1. *)
Definition sA : state := state_of (scenario_A boot).
Definition tA : ptr := 1.

(** The same table with no memory left to allocate from. *)
Definition starved : state :=
  {| heap := heap sA; brk := brk sA; quota := 0; trace := trace sA |}.

(** A table in which key 1 is bound to the NULL pointer. *)
Definition scenario_N : M ptr :=
  t <- table_create numcmp ;;
  table_insert t 1 NULL ;;;
  table_insert t 2 str_b ;;;
  ret t.

Definition sN : state := state_of (scenario_N boot).

(** Scenario D: destructors registered for keys and values, one entry. *)
Definition key_destructor : funptr := FUser 1.
Definition value_destructor : funptr := FUser 2.

Definition scenario_D : M ptr :=
  t <- table_create numcmp ;;
  table_setKeyMemHandler t key_destructor ;;;
  table_setValueMemHandler t value_destructor ;;;
  table_insert t 1 str_a ;;;
  ret t.

Definition sD : state := state_of (scenario_D boot).

End Scenario.

(** ** Running the monad *)

Lemma bind_assoc {A B C} (m : M A) (f : A -> M B) (g : B -> M C) s :
  bind (bind m f) g s = bind m (fun x => bind (f x) g) s.
Proof. unfold bind. destruct (m s); reflexivity. Qed.

Lemma bind_done {A B} (m : M A) (k : A -> M B) s a s' :
  m s = Done a s' -> bind m k s = k a s'.
Proof. unfold bind. intros ->. reflexivity. Qed.

Lemma bind_ret {A B} (a : A) (k : A -> M B) s : bind (ret a) k s = k a s.
Proof. reflexivity. Qed.

Lemma log_nil s : log [] s = s.
Proof. destruct s. unfold log. cbn. rewrite app_nil_r. reflexivity. Qed.

Lemma log_log evs1 evs2 s : log evs2 (log evs1 s) = log (evs1 ++ evs2) s.
Proof. unfold log. cbn. rewrite app_assoc. reflexivity. Qed.

Lemma eqb_NULL_false (a : ptr) : a <> NULL -> (a =? NULL) = false.
Proof. intros. apply Z.eqb_neq. assumption. Qed.

Section Primitives.
Variable s : state.

Lemma load_run a c :
  a <> NULL -> heap s !! a = Some c -> load a s = Done c s.
Proof. intros Ha Hc. unfold load. rewrite eqb_NULL_false, Hc; done. Qed.

Lemma store_run a c c0 :
  a <> NULL -> heap s !! a = Some c0 ->
  store a c s = Done tt (set_heap (<[a := c]> (heap s)) s).
Proof. intros Ha Hc. unfold store. rewrite eqb_NULL_false, Hc; done. Qed.

Lemma free_run a c :
  a <> NULL -> heap s !! a = Some c ->
  free a s = Done tt {| heap := delete a (heap s); brk := brk s;
                        quota := S (quota s); trace := trace s |}.
Proof. intros Ha Hc. unfold free. rewrite eqb_NULL_false, Hc; done. Qed.

Lemma get_values_run t l f kf vf :
  t <> NULL -> heap s !! t = Some (CTable l f kf vf) -> get_values t s = Done l s.
Proof. intros. unfold get_values. erewrite bind_done by (eapply load_run; eauto). done. Qed.

Lemma get_cf_run t l f kf vf :
  t <> NULL -> heap s !! t = Some (CTable l f kf vf) -> get_cf t s = Done f s.
Proof. intros. unfold get_cf. erewrite bind_done by (eapply load_run; eauto). done. Qed.

Lemma get_keyFree_run t l f kf vf :
  t <> NULL -> heap s !! t = Some (CTable l f kf vf) -> get_keyFree t s = Done kf s.
Proof. intros. unfold get_keyFree. erewrite bind_done by (eapply load_run; eauto). done. Qed.

Lemma get_valueFree_run t l f kf vf :
  t <> NULL -> heap s !! t = Some (CTable l f kf vf) -> get_valueFree t s = Done vf s.
Proof. intros. unfold get_valueFree. erewrite bind_done by (eapply load_run; eauto). done. Qed.

Lemma get_head_run l h f :
  l <> NULL -> heap s !! l = Some (CList h f) -> get_head l s = Done h s.
Proof. intros. unfold get_head. erewrite bind_done by (eapply load_run; eauto). done. Qed.

Lemma get_freeFunc_run l h f :
  l <> NULL -> heap s !! l = Some (CList h f) -> get_freeFunc l s = Done f s.
Proof. intros. unfold get_freeFunc. erewrite bind_done by (eapply load_run; eauto). done. Qed.

Lemma get_next_run p n d :
  p <> NULL -> heap s !! p = Some (CNode n d) -> get_next p s = Done n s.
Proof. intros. unfold get_next. erewrite bind_done by (eapply load_run; eauto). done. Qed.

Lemma get_data_run p n d :
  p <> NULL -> heap s !! p = Some (CNode n d) -> get_data p s = Done d s.
Proof. intros. unfold get_data. erewrite bind_done by (eapply load_run; eauto). done. Qed.

Lemma get_key_run e k v :
  e <> NULL -> heap s !! e = Some (CElem k v) -> get_key e s = Done k s.
Proof. intros. unfold get_key. erewrite bind_done by (eapply load_run; eauto). done. Qed.

Lemma get_value_run e k v :
  e <> NULL -> heap s !! e = Some (CElem k v) -> get_value e s = Done v s.
Proof. intros. unfold get_value. erewrite bind_done by (eapply load_run; eauto). done. Qed.

Lemma set_next_run p n d n' :
  p <> NULL -> heap s !! p = Some (CNode n d) ->
  set_next p n' s = Done tt (set_heap (<[p := CNode n' d]> (heap s)) s).
Proof.
  intros. unfold set_next. erewrite bind_done by (eapply load_run; eauto).
  eapply store_run; eauto.
Qed.

Lemma set_data_run p n d d' :
  p <> NULL -> heap s !! p = Some (CNode n d) ->
  set_data p d' s = Done tt (set_heap (<[p := CNode n d']> (heap s)) s).
Proof.
  intros. unfold set_data. erewrite bind_done by (eapply load_run; eauto).
  eapply store_run; eauto.
Qed.

Lemma set_key_run e k v k' :
  e <> NULL -> heap s !! e = Some (CElem k v) ->
  set_key e k' s = Done tt (set_heap (<[e := CElem k' v]> (heap s)) s).
Proof.
  intros. unfold set_key. erewrite bind_done by (eapply load_run; eauto).
  eapply store_run; eauto.
Qed.

Lemma set_value_run e k v v' :
  e <> NULL -> heap s !! e = Some (CElem k v) ->
  set_value e v' s = Done tt (set_heap (<[e := CElem k v']> (heap s)) s).
Proof.
  intros. unfold set_value. erewrite bind_done by (eapply load_run; eauto).
  eapply store_run; eauto.
Qed.

Lemma set_values_run t l f kf vf l' :
  t <> NULL -> heap s !! t = Some (CTable l f kf vf) ->
  set_values t l' s = Done tt (set_heap (<[t := CTable l' f kf vf]> (heap s)) s).
Proof.
  intros. unfold set_values. erewrite bind_done by (eapply load_run; eauto).
  eapply store_run; eauto.
Qed.

Lemma set_cf_run t l f kf vf f' :
  t <> NULL -> heap s !! t = Some (CTable l f kf vf) ->
  set_cf t f' s = Done tt (set_heap (<[t := CTable l f' kf vf]> (heap s)) s).
Proof.
  intros. unfold set_cf. erewrite bind_done by (eapply load_run; eauto).
  eapply store_run; eauto.
Qed.

Lemma set_keyFree_run t l f kf vf kf' :
  t <> NULL -> heap s !! t = Some (CTable l f kf vf) ->
  set_keyFree t kf' s = Done tt (set_heap (<[t := CTable l f kf' vf]> (heap s)) s).
Proof.
  intros. unfold set_keyFree. erewrite bind_done by (eapply load_run; eauto).
  eapply store_run; eauto.
Qed.

Lemma set_valueFree_run t l f kf vf vf' :
  t <> NULL -> heap s !! t = Some (CTable l f kf vf) ->
  set_valueFree t vf' s = Done tt (set_heap (<[t := CTable l f kf vf']> (heap s)) s).
Proof.
  intros. unfold set_valueFree. erewrite bind_done by (eapply load_run; eauto).
  eapply store_run; eauto.
Qed.

Lemma set_head_run l h f h' :
  l <> NULL -> heap s !! l = Some (CList h f) ->
  set_head l h' s = Done tt (set_heap (<[l := CList h' f]> (heap s)) s).
Proof.
  intros. unfold set_head. erewrite bind_done by (eapply load_run; eauto).
  eapply store_run; eauto.
Qed.

Lemma set_freeFunc_run l h f f' :
  l <> NULL -> heap s !! l = Some (CList h f) ->
  set_freeFunc l f' s = Done tt (set_heap (<[l := CList h f']> (heap s)) s).
Proof.
  intros. unfold set_freeFunc. erewrite bind_done by (eapply load_run; eauto).
  eapply store_run; eauto.
Qed.

Lemma call_cf_run t l cmp kf vf a b :
  t <> NULL -> heap s !! t = Some (CTable l (Some cmp) kf vf) ->
  call_cf t a b s = Done (cmp a b) (log [EvCompare a b] s).
Proof.
  intros. unfold call_cf. erewrite bind_done by (eapply get_cf_run; eauto). done.
Qed.

Lemma free_key_run t l f kf vf k :
  t <> NULL -> heap s !! t = Some (CTable l f kf vf) ->
  free_key t k s =
  Done tt (log (if is_null_fn kf then [] else [EvKeyFree kf k]) s).
Proof.
  intros. unfold free_key. erewrite bind_done by (eapply get_keyFree_run; eauto).
  destruct kf; cbn; rewrite ?log_nil; done.
Qed.

Lemma free_value_run t l f kf vf v :
  t <> NULL -> heap s !! t = Some (CTable l f kf vf) ->
  free_value t v s =
  Done tt (log (if is_null_fn vf then [] else [EvValueFree vf v]) s).
Proof.
  intros. unfold free_value. erewrite bind_done by (eapply get_valueFree_run; eauto).
  destruct vf; cbn; rewrite ?log_nil; done.
Qed.
End Primitives.

(** Symbolic execution of one monadic step, given the heap facts in context. *)
Ltac side_nonnull := first [ assumption | congruence ].

Ltac side_lookup :=
  cbn [heap set_heap log];
  repeat first [ rewrite lookup_insert_eq
               | rewrite lookup_insert_ne by congruence
               | rewrite lookup_delete_ne by congruence ];
  first [ eassumption | reflexivity ].

Ltac prim_run :=
  first [ eapply get_values_run | eapply get_cf_run
        | eapply get_keyFree_run | eapply get_valueFree_run
        | eapply get_head_run | eapply get_freeFunc_run
        | eapply get_next_run | eapply get_data_run
        | eapply get_key_run | eapply get_value_run
        | eapply set_next_run | eapply set_data_run
        | eapply set_key_run | eapply set_value_run
        | eapply set_values_run | eapply set_cf_run
        | eapply set_keyFree_run | eapply set_valueFree_run
        | eapply set_head_run | eapply set_freeFunc_run
        | eapply call_cf_run | eapply free_key_run | eapply free_value_run
        | eapply free_run ];
  [ side_nonnull | side_lookup ].

Ltac step :=
  cbv beta match; rewrite ?bind_assoc;
  first [ rewrite bind_ret | erewrite bind_done by prim_run ];
  cbn [heap brk quota trace set_heap log].

(** The last call of a sequence. *)
Ltac last_step :=
  cbv beta match; etrans; [ prim_run | try reflexivity ].

(** ** Chains of cells *)

Lemma chain_app h cs1 cs2 p q :
  chain h p (cs1 ++ cs2) q <-> exists r, chain h p cs1 r /\ chain h r cs2 q.
Proof.
  revert p. induction cs1 as [|c cs1 IH]; intros p; cbn.
  - split.
    + intros H. exists p. auto.
    + intros (r & -> & H). exact H.
  - split.
    + intros (Hp & Hn & Hd & He & n & Hc & Hrest).
      apply IH in Hrest as (r & H1 & H2).
      exists r. split; [|exact H2]. repeat (split; [assumption|]). eauto.
    + intros (r & (Hp & Hn & Hd & He & n & Hc & H1) & H2).
      repeat (split; [assumption|]). exists n. split; [assumption|].
      apply IH. eauto.
Qed.

(** A chain only depends on the cells it is made of. *)
Lemma chain_ext h h' cs p q :
  (forall a, a ∈ fmap c_addr cs \/ a ∈ fmap c_data cs -> h' !! a = h !! a) ->
  chain h p cs q -> chain h' p cs q.
Proof.
  revert p. induction cs as [|c cs IH]; intros p Hagree; cbn; [done|].
  intros (Hp & Hn & Hd & He & n & Hc & Hrest). subst p.
  split; [reflexivity|]. repeat (split; [assumption|]). split.
  - rewrite Hagree; [assumption|]. right. cbn. left.
  - exists n. split.
    + rewrite Hagree; [assumption|]. left. cbn. left.
    + apply IH; [|assumption]. intros a [Ha|Ha]; apply Hagree; cbn.
      * left. right. assumption.
      * right. right. assumption.
Qed.

Lemma chain_cell h cs p q c :
  chain h p cs q -> c ∈ cs ->
  c_addr c <> NULL /\ c_data c <> NULL /\
  h !! c_data c = Some (CElem (c_key c) (c_value c)) /\
  exists n, h !! c_addr c = Some (CNode n (c_data c)).
Proof.
  revert p. induction cs as [|c' cs IH]; intros p; cbn.
  - intros _ Hin. inversion Hin.
  - intros (Hp & Hn & Hd & He & n & Hc & Hrest) Hin.
    apply elem_of_cons in Hin as [->|Hin].
    + subst p. eauto 8.
    + eapply IH; eauto.
Qed.

Lemma chain_addr_is_node h cs p q a :
  chain h p cs q -> a ∈ fmap c_addr cs -> exists n d, h !! a = Some (CNode n d).
Proof.
  intros Hch Hin. apply list_elem_of_fmap in Hin as (c & -> & Hc).
  destruct (chain_cell _ _ _ _ _ Hch Hc) as (_ & _ & _ & n & Hn). eauto.
Qed.

Lemma chain_data_is_elem h cs p q a :
  chain h p cs q -> a ∈ fmap c_data cs -> exists k v, h !! a = Some (CElem k v).
Proof.
  intros Hch Hin. apply list_elem_of_fmap in Hin as (c & -> & Hc).
  destruct (chain_cell _ _ _ _ _ Hch Hc) as (_ & _ & He & _). eauto.
Qed.

(** The heap is a function, so the cells reachable from an address are
    determined by it. *)
Lemma chain_walk h cs p :
  chain h p cs NULL -> forall fuel, (length cs < fuel)%nat ->
  walk fuel h p = Some (fmap entry_of cs).
Proof.
  revert p. induction cs as [|c cs IH]; intros p; cbn.
  - intros -> [|fuel] Hf; [lia|]. reflexivity.
  - intros (Hp & Hn & Hd & He & n & Hc & Hrest) [|fuel] Hf; [lia|].
    cbn. rewrite eqb_NULL_false by assumption. rewrite Hc, He.
    rewrite (IH n Hrest fuel) by lia. reflexivity.
Qed.

Lemma table_is_contents s t cmp kf vf es fuel :
  table_is s t cmp kf vf es -> (length es < fuel)%nat ->
  contents fuel t s = Some es.
Proof.
  intros (l & hd & jd & first & cs & [] & ->) Hf. unfold contents.
  rewrite rep_table0, rep_list0, rep_head0.
  apply chain_walk; [assumption|]. rewrite length_fmap in Hf. assumption.
Qed.

Lemma table_is_functional s t cmp kf vf es cmp' kf' vf' es' :
  table_is s t cmp kf vf es -> table_is s t cmp' kf' vf' es' -> es = es'.
Proof.
  intros H1 H2.
  pose proof (table_is_contents _ _ _ _ _ _ (S (length es + length es')) H1 ltac:(lia)) as E1.
  pose proof (table_is_contents _ _ _ _ _ _ (S (length es + length es')) H2 ltac:(lia)) as E2.
  congruence.
Qed.

(** ** The scan of [table_lookup] *)

Section LookupLoop.
Variables (t : ptr) (cmp : CompareFunction) (kf vf : funptr) (l : ptr) (key : KEY).

(** The scan has reached the end of the list. *)
Lemma lookup_loop_end fuel p dp s :
  t <> NULL -> heap s !! t = Some (CTable l (Some cmp) kf vf) ->
  p <> NULL -> heap s !! p = Some (CNode NULL dp) ->
  table_lookup_loop (S fuel) t key p s = Done NULL s.
Proof.
  intros Ht Htab Hp Hnode. cbn [table_lookup_loop].
  unfold dlist_isEnd. repeat step. reflexivity.
Qed.

(** The entry after position [p] does not match: move on to it. *)
Lemma lookup_loop_skip fuel p n dp c rest q s :
  t <> NULL -> heap s !! t = Some (CTable l (Some cmp) kf vf) ->
  p <> NULL -> heap s !! p = Some (CNode n dp) ->
  chain (heap s) n (c :: rest) q ->
  matches cmp key (entry_of c) = false ->
  table_lookup_loop (S fuel) t key p s =
  table_lookup_loop fuel t key (c_addr c) (log [EvCompare (c_key c) key] s).
Proof.
  intros Ht Htab Hp Hnode (-> & Hn & Hd & He & n' & Hc & Hrest) Hm.
  cbn [table_lookup_loop].
  unfold dlist_isEnd, dlist_inspect, dlist_next. repeat step.
  rewrite eqb_NULL_false by assumption.
  repeat step. unfold matches in Hm. cbn in Hm. rewrite Hm.
  step. reflexivity.
Qed.

(** The entry after position [p] matches: relink and return its value. *)
Lemma lookup_loop_hit fuel p n dp c rest q s :
  t <> NULL -> heap s !! t = Some (CTable l (Some cmp) kf vf) ->
  p <> NULL -> heap s !! p = Some (CNode n dp) ->
  chain (heap s) n (c :: rest) q ->
  matches cmp key (entry_of c) = true ->
  table_lookup_loop (S fuel) t key p s =
  bind (relink t p) (fun _ => get_value (c_data c)) (log [EvCompare (c_key c) key] s).
Proof.
  intros Ht Htab Hp Hnode (-> & Hn & Hd & He & n' & Hc & Hrest) Hm.
  cbn [table_lookup_loop].
  unfold dlist_isEnd, dlist_inspect, dlist_next. repeat step.
  rewrite eqb_NULL_false by assumption.
  repeat step. unfold matches in Hm. cbn in Hm. rewrite Hm.
  reflexivity.
Qed.

(** Skipping a non-empty run of non-matching entries leaves the scan at the
    last of them. *)
Lemma lookup_loop_scan pre : forall pc fuel p n dp q s,
  t <> NULL -> heap s !! t = Some (CTable l (Some cmp) kf vf) ->
  p <> NULL -> heap s !! p = Some (CNode n dp) ->
  chain (heap s) n (pre ++ [pc]) q ->
  Forall (fun c => matches cmp key (entry_of c) = false) (pre ++ [pc]) ->
  table_lookup_loop (length (pre ++ [pc]) + fuel) t key p s =
  table_lookup_loop fuel t key (c_addr pc)
    (log (compare_events key (fmap entry_of (pre ++ [pc]))) s).
Proof.
  induction pre as [|c pre IH]; intros pc fuel p n dp q s Ht Htab Hp Hnode Hch Hall.
  - cbn [app length Nat.add]. apply Forall_cons in Hall as [Hm _].
    eapply lookup_loop_skip; eauto.
  - cbn [app length Nat.add] in *. apply Forall_cons in Hall as [Hm Hall].
    erewrite lookup_loop_skip by eauto.
    destruct Hch as (-> & Hn & Hd & He & n' & Hc & Hrest).
    erewrite (IH pc fuel (c_addr c) n' (c_data c) q); eauto.
    rewrite log_log. reflexivity.
Qed.

(** The three stores of the relink, for a position [p] whose successor [m]
    is a cell other than the head sentinel and other than [p] itself.
    Nothing is assumed about whether [p] is the sentinel. *)
Lemma relink_run p hd first jd m dp nx dm s :
  t <> NULL -> heap s !! t = Some (CTable l (Some cmp) kf vf) ->
  l <> NULL -> heap s !! l = Some (CList hd FLibcFree) ->
  hd <> NULL -> heap s !! hd = Some (CNode first jd) ->
  p <> NULL -> heap s !! p = Some (CNode m dp) ->
  m <> NULL -> heap s !! m = Some (CNode nx dm) ->
  m <> hd -> m <> p ->
  relink t p s =
  Done tt (set_heap (<[p := CNode nx dp]>
                       (<[m := CNode first dm]>
                          (<[hd := CNode m jd]> (heap s)))) s).
Proof.
  intros Ht Htab Hl Hlist Hhd Hhead Hp Hnode Hm Hmnode Hmh Hmp.
  assert (t <> hd) by (intros ->; congruence).
  assert (t <> m) by (intros ->; congruence).
  assert (t <> p) by (intros ->; congruence).
  assert (l <> hd) by (intros ->; congruence).
  assert (l <> m) by (intros ->; congruence).
  assert (l <> p) by (intros ->; congruence).
  unfold relink. repeat step.
  destruct (decide (p = hd)) as [->|Hne].
  - assert (first = m) by congruence. assert (jd = dp) by congruence. subst.
    repeat step. last_step.
  - repeat step. last_step.
Qed.

End LookupLoop.

(** ** [table_lookup] on a well-formed table *)

Section Lookup.
Variables (t : ptr) (cmp : CompareFunction) (kf vf : funptr) (key : KEY).

(** A miss: the scan visits every entry and nothing is written. *)
Lemma table_lookup_miss_rep s l hd jd first cs fuel :
  table_rep s t cmp kf vf l hd jd first cs ->
  Forall (no_match cmp key) cs -> (length cs < fuel)%nat ->
  table_lookup fuel t key s =
  Done NULL (log (compare_events key (entry_of <$> cs)) s).
Proof.
  intros [] Hall Hfuel. unfold table_lookup, dlist_first. repeat step.
  destruct cs as [|c0 cs0] using rev_ind.
  - cbn in rep_chain0. subst first. destruct fuel as [|fuel]; [cbn in Hfuel; lia|].
    cbn [fmap list_fmap compare_events]. rewrite log_nil.
    eapply lookup_loop_end; eauto.
  - clear IHcs0.
    replace fuel with (length (cs0 ++ [c0]) + S (fuel - length (cs0 ++ [c0]) - 1))%nat
      by (clear - Hfuel; lia).
    erewrite lookup_loop_scan by eauto.
    apply chain_app in rep_chain0 as (r & _ & (-> & Hn & _ & _ & n & Hc & ->)).
    eapply lookup_loop_end; eauto.
Qed.


Lemma heap_ok_addr s a c : heap_ok s -> heap s !! a = Some c -> 0 < a < brk s.
Proof. intros [_ Hall] Ha. exact (Hall a c Ha). Qed.

(** A hit on the entry directly behind the head sentinel.  Here [p] is the
    sentinel itself, so the third store ([p->next = temp1]) overwrites the
    first ([head->next = p->next]): the head ends up pointing past the matched
    cell, which is left pointing to itself and is no longer in the list. *)
Lemma table_lookup_front_rep s l hd jd first m post fuel :
  table_rep s t cmp kf vf l hd jd first (m :: post) ->
  matches cmp key (entry_of m) = true -> (0 < fuel)%nat ->
  exists s' nx,
    table_lookup fuel t key s = Done (c_value m) s' /\
    table_rep s' t cmp kf vf l hd jd nx post /\
    heap s' !! c_addr m = Some (CNode (c_addr m) (c_data m)) /\
    trace s' = trace s ++ [EvCompare (c_key m) key] /\
    brk s' = brk s /\ quota s' = quota s.
Proof.
  intros [] Hm Hfuel. destruct fuel as [|fuel]; [lia|].
  pose proof rep_chain0 as Hch.
  destruct Hch as (-> & Hn & Hd & He & nx & Hc & Hpost).
  apply NoDup_cons in rep_nodup_cells0 as [Hhd_out Hnd].
  rewrite fmap_cons in Hhd_out, Hnd.
  apply NoDup_cons in Hnd as [Hm_out Hnd].
  apply not_elem_of_cons in Hhd_out as [Hhm Hhd_out].
  rewrite fmap_cons in rep_nodup_data0.
  apply NoDup_cons in rep_nodup_data0 as [Hdm_out Hndd].
  assert (Hdata : forall a, a ∈ c_data <$> post -> a <> hd /\ a <> c_addr m).
  { intros a Ha. destruct (chain_data_is_elem _ _ _ _ _ Hpost Ha) as (k & v & Hkv).
    split; intros ->; congruence. }
  assert (t <> hd) by (intros ->; congruence).
  assert (t <> c_addr m) by (intros ->; congruence).
  assert (l <> hd) by (intros ->; congruence).
  assert (l <> c_addr m) by (intros ->; congruence).
  assert (c_data m <> hd) by (intros E; rewrite E in He; congruence).
  assert (c_data m <> c_addr m) by (intros E; rewrite E in He; congruence).
  eexists _, nx. split.
  { unfold table_lookup, dlist_first. repeat step.
    erewrite lookup_loop_hit by eauto.
    erewrite bind_done
      by (eapply relink_run with (hd := hd) (m := c_addr m); eauto).
    eapply get_value_run; [assumption|]. side_lookup. }
  cbn [heap set_heap log trace brk quota].
  split; [|split; [side_lookup | done]].
  constructor; cbn [heap set_heap log trace brk quota]; try assumption.
  - destruct rep_heap_ok0 as [Hb Hall]. split; [assumption|].
    cbn [heap set_heap log trace brk quota].
    repeat apply map_Forall_insert_2; try assumption.
    + exact (Hall _ _ rep_head0).
    + exact (Hall _ _ Hc).
    + exact (Hall _ _ rep_head0).
  - side_lookup.
  - side_lookup.
  - side_lookup.
  - eapply chain_ext; [|exact Hpost].
    intros a [Ha|Ha].
    + assert (a <> hd) by (intros E; rewrite E in Ha; contradiction).
      assert (a <> c_addr m) by (intros E; rewrite E in Ha; contradiction).
      rewrite !lookup_insert_ne by congruence. reflexivity.
    + destruct (Hdata a Ha). rewrite !lookup_insert_ne by congruence. reflexivity.
  - apply NoDup_cons. split; assumption.
Qed.

(** A hit behind at least one skipped entry: the matched cell is unlinked
    from its predecessor [pc] and hooked in between the head sentinel and the
    former first cell. *)
Lemma table_lookup_promote_rep s l hd jd first pre pc m post fuel :
  table_rep s t cmp kf vf l hd jd first ((pre ++ [pc]) ++ m :: post) ->
  Forall (no_match cmp key) (pre ++ [pc]) ->
  matches cmp key (entry_of m) = true ->
  (length (pre ++ [pc]) < fuel)%nat ->
  exists s',
    table_lookup fuel t key s = Done (c_value m) s' /\
    table_rep s' t cmp kf vf l hd jd (c_addr m) (m :: (pre ++ [pc]) ++ post) /\
    trace s' = trace s ++ compare_events key (entry_of <$> (pre ++ [pc]) ++ [m]) /\
    brk s' = brk s /\ quota s' = quota s.
Proof.
  intros [] Hall Hm Hfuel.
  assert (Hf : exists fuel', fuel = (length (pre ++ [pc]) + S fuel')%nat)
    by (exists (fuel - length (pre ++ [pc]) - 1)%nat; clear - Hfuel; lia).
  destruct Hf as [fuel' ->]. clear Hfuel.
  pose proof rep_chain0 as Hch.
  apply chain_app in Hch as (r & Hskip & Hch).
  pose proof Hskip as Hskip'.
  apply chain_app in Hskip' as (r' & Hpre & (-> & Hpn & Hpd & Hpe & n1 & Hpc & ->)).
  destruct Hch as (-> & Hmn & Hmd & Hme & nx & Hmc & Hpost).
  (* distinctness of the cells involved *)
  pose proof rep_nodup_cells0 as Hnd.
  rewrite <- app_assoc in Hnd. cbn [app] in Hnd.
  rewrite fmap_app, !fmap_cons in Hnd.
  apply NoDup_cons in Hnd as [Hhd_out Hnd].
  apply NoDup_app in Hnd as (Hnd_pre & Hdisj & Hnd).
  apply NoDup_cons in Hnd as [Hpc_out Hnd].
  apply NoDup_cons in Hnd as [Hm_out Hnd_post].
  assert (Hhp : hd <> c_addr pc) by set_solver.
  assert (Hhm : hd <> c_addr m) by set_solver.
  assert (Hpm : c_addr pc <> c_addr m) by set_solver.
  assert (Hpre_addr : forall a, a ∈ c_addr <$> pre ->
            a <> hd /\ a <> c_addr pc /\ a <> c_addr m).
  { intros a Ha. pose proof (Hdisj a Ha). set_solver. }
  assert (Hpost_addr : forall a, a ∈ c_addr <$> post ->
            a <> hd /\ a <> c_addr pc /\ a <> c_addr m) by set_solver.
  assert (Hdata : forall a k v, heap s !! a = Some (CElem k v) ->
            a <> hd /\ a <> c_addr pc /\ a <> c_addr m).
  { intros a k v Ha. repeat split; intros ->; congruence. }
  assert (Htab_ne : t <> hd /\ t <> c_addr pc /\ t <> c_addr m)
    by (repeat split; intros ->; congruence).
  assert (Hl_ne : l <> hd /\ l <> c_addr pc /\ l <> c_addr m)
    by (repeat split; intros ->; congruence).
  destruct Htab_ne as (? & ? & ?), Hl_ne as (? & ? & ?).
  destruct (Hdata _ _ _ Hme) as (? & ? & ?).
  destruct (Hdata _ _ _ Hpe) as (? & ? & ?).
  eexists. split.
  { unfold table_lookup, dlist_first. repeat step.
    erewrite lookup_loop_scan by eauto.
    erewrite lookup_loop_hit; [| eauto | eauto | eauto | exact Hpc | | exact Hm].
    2:{ cbn. repeat (split; [first [reflexivity | assumption]|]).
        exists nx. split; [assumption | exact Hpost]. }
    rewrite log_log.
    erewrite bind_done
      by (eapply relink_run with (hd := hd) (p := c_addr pc) (m := c_addr m); eauto).
    eapply get_value_run; [assumption|]. side_lookup. }
  cbn [heap set_heap log trace brk quota].
  split; [|split; [|done]].
  2:{ f_equal. unfold compare_events. rewrite !fmap_app. reflexivity. }
  constructor; cbn [heap set_heap log trace brk quota]; try assumption.
  - destruct rep_heap_ok0 as [Hb Hok]. split; [assumption|].
    cbn [heap set_heap log trace brk quota].
    repeat apply map_Forall_insert_2; try assumption.
    + exact (Hok _ _ Hpc).
    + exact (Hok _ _ Hmc).
    + exact (Hok _ _ rep_head0).
  - side_lookup.
  - side_lookup.
  - side_lookup.
  - cbn [chain]. split; [reflexivity|]. do 2 (split; [assumption|]).
    split; [side_lookup|]. exists first. split; [side_lookup|].
    apply chain_app. exists nx. split.
    + apply chain_app. exists (c_addr pc). split.
      * eapply chain_ext; [|exact Hpre]. intros a [Ha|Ha].
        -- destruct (Hpre_addr a Ha) as (? & ? & ?).
           rewrite !lookup_insert_ne by congruence. reflexivity.
        -- destruct (chain_data_is_elem _ _ _ _ _ Hpre Ha) as (k & v & Hkv).
           destruct (Hdata _ _ _ Hkv) as (? & ? & ?).
           rewrite !lookup_insert_ne by congruence. reflexivity.
      * cbn [chain]. split; [reflexivity|]. do 2 (split; [assumption|]).
        split; [side_lookup|]. exists nx. split; [side_lookup | reflexivity].
    + eapply chain_ext; [|exact Hpost]. intros a [Ha|Ha].
      * destruct (Hpost_addr a Ha) as (? & ? & ?).
        rewrite !lookup_insert_ne by congruence. reflexivity.
      * destruct (chain_data_is_elem _ _ _ _ _ Hpost Ha) as (k & v & Hkv).
        destruct (Hdata _ _ _ Hkv) as (? & ? & ?).
        rewrite !lookup_insert_ne by congruence. reflexivity.
  - rewrite (Permutation_middle (pre ++ [pc]) post m). assumption.
  - rewrite (Permutation_middle (pre ++ [pc]) post m). assumption.
Qed.

End Lookup.

(** ** [table_insert] on a well-formed table *)

Lemma malloc_run s q init :
  quota s = S q ->
  malloc init s =
  Done (brk s) {| heap := <[brk s := init]> (heap s); brk := brk s + 1;
                  quota := q; trace := trace s |}.
Proof. intros Hq. unfold malloc. rewrite Hq. reflexivity. Qed.

Ltac step_malloc :=
  cbv beta match; rewrite ?bind_assoc;
  erewrite bind_done
    by (eapply malloc_run; cbn [quota set_heap log]; first [eassumption | reflexivity]);
  cbn [heap brk quota trace set_heap log].

(** Whatever is allocated differs from the next two addresses [malloc]
    will hand out. *)
Lemma heap_ok_fresh s a c :
  heap_ok s -> heap s !! a = Some c -> a <> brk s /\ a <> brk s + 1.
Proof.
  intros [_ Hall] Ha. pose proof (Hall a c Ha) as Hx. cbn beta in Hx.
  clear - Hx. lia.
Qed.

Lemma table_insert_rep s t cmp kf vf l hd jd first cs k v :
  table_rep s t cmp kf vf l hd jd first cs ->
  (2 <= quota s)%nat ->
  exists s',
    table_insert t k v s = Done tt s' /\
    table_rep s' t cmp kf vf l hd jd (brk s + 1)
      ({| c_addr := brk s + 1; c_data := brk s; c_key := k; c_value := v |} :: cs) /\
    trace s' = trace s /\ brk s' = brk s + 2 /\ (quota s' + 2 = quota s)%nat.
Proof.
  intros [] Hq.
  destruct (quota s) as [|[|q]] eqn:Eq; [clear - Hq; lia | clear - Hq; lia | clear Hq].
  pose proof rep_heap_ok0 as [Hb Hall].
  assert (Hb0 : brk s <> NULL) by (unfold NULL; clear - Hb; lia).
  assert (Hb1 : brk s + 1 <> NULL) by (unfold NULL; clear - Hb; lia).
  assert (Hb01 : brk s <> brk s + 1) by (clear; lia).
  destruct (heap_ok_fresh _ _ _ rep_heap_ok0 rep_table0).
  destruct (heap_ok_fresh _ _ _ rep_heap_ok0 rep_list0).
  destruct (heap_ok_fresh _ _ _ rep_heap_ok0 rep_head0).
  eexists. split.
  { unfold table_insert, dlist_insert, dlist_first.
    step_malloc. repeat step. step_malloc. repeat step. reflexivity. }
  cbn [heap set_heap log trace brk quota].
  split; [|split; [reflexivity | split; clear; lia]].
  assert (Hold : forall a c, heap s !! a = Some c ->
            a <> hd ->
            <[hd:=CNode (brk s + 1) jd]>
              (<[brk s + 1:=CNode first (brk s)]>
                 (<[brk s + 1:=CNode NULL (brk s)]>
                    (<[brk s + 1:=CNode NULL NULL]>
                       (<[brk s:=CElem k v]>
                          (<[brk s:=CElem k NULL]>
                             (<[brk s:=CElem NULL NULL]> (heap s))))))) !! a
            = heap s !! a).
  { intros a c Ha Hne. destruct (heap_ok_fresh _ _ _ rep_heap_ok0 Ha).
    rewrite !lookup_insert_ne by congruence. reflexivity. }
  assert (t <> hd) by (intros ->; congruence).
  assert (l <> hd) by (intros ->; congruence).
  constructor; cbn [heap set_heap log trace brk quota c_addr c_data c_key c_value];
    try assumption.
  - unfold heap_ok. cbn [heap set_heap log trace brk quota].
    split; [clear - Hb; lia|].
    assert (Hall' : map_Forall (fun (a : Z) (_ : cell) => 0 < a < brk s + 1 + 1) (heap s)).
    { intros a c Ha. pose proof (Hall a c Ha) as Hx. cbn beta in Hx |- *.
      clear - Hx. lia. }
    repeat apply map_Forall_insert_2; try assumption.
    + pose proof (Hall _ _ rep_head0) as Hx. cbn beta in Hx. clear - Hx. lia.
    + clear - Hb. lia.
    + clear - Hb. lia.
    + clear - Hb. lia.
    + clear - Hb. lia.
    + clear - Hb. lia.
    + clear - Hb. lia.
  - erewrite Hold by eauto. assumption.
  - erewrite Hold by eauto. assumption.
  - side_lookup.
  - cbn [chain c_addr c_data c_key c_value].
    split; [reflexivity|]. do 2 (split; [assumption|]).
    split; [side_lookup|]. exists first. split; [side_lookup|].
    eapply chain_ext; [|exact rep_chain0]. intros a Ha.
    apply NoDup_cons in rep_nodup_cells0 as [Hhd_out _].
    destruct Ha as [Ha|Ha].
    + destruct (chain_addr_is_node _ _ _ _ _ rep_chain0 Ha) as (n & d & Hnd).
      eapply Hold; [eassumption|]. intros ->. contradiction.
    + destruct (chain_data_is_elem _ _ _ _ _ rep_chain0 Ha) as (k' & v' & Hkv).
      eapply Hold; [eassumption|]. intros ->. congruence.
  - apply NoDup_cons in rep_nodup_cells0 as [Hhd_out Hnd].
    rewrite fmap_cons. cbn [c_addr].
    apply NoDup_cons. split.
    + apply not_elem_of_cons. split; [assumption|]. exact Hhd_out.
    + apply NoDup_cons. split; [|assumption].
      intros Ha. destruct (chain_addr_is_node _ _ _ _ _ rep_chain0 Ha) as (n & d & Hnd').
      destruct (heap_ok_fresh _ _ _ rep_heap_ok0 Hnd'). congruence.
  - rewrite fmap_cons. cbn [c_data]. apply NoDup_cons. split; [|assumption].
    intros Ha. destruct (chain_data_is_elem _ _ _ _ _ rep_chain0 Ha) as (k' & v' & Hkv).
    destruct (heap_ok_fresh _ _ _ rep_heap_ok0 Hkv). congruence.
Qed.

(** ** Discarding entries: [table_remove] and [table_free] *)

(** [dlist_remove] at position [p], where the list's memory handler is
    [free]: the cell after [p] and its payload are both released. *)
Lemma dlist_remove_run s l hd p a dp n d k v :
  l <> NULL -> heap s !! l = Some (CList hd FLibcFree) ->
  p <> NULL -> heap s !! p = Some (CNode a dp) ->
  a <> NULL -> heap s !! a = Some (CNode n d) ->
  d <> NULL -> heap s !! d = Some (CElem k v) ->
  a <> p ->
  dlist_remove l p s =
  Done p {| heap := delete a (delete d (<[p := CNode n dp]> (heap s)));
            brk := brk s; quota := S (S (quota s)); trace := trace s |}.
Proof.
  intros Hl Hlist Hp Hnode Ha Hanode Hd Helem Hap.
  assert (l <> p) by (intros ->; congruence).
  assert (l <> a) by (intros ->; congruence).
  assert (l <> d) by (intros ->; congruence).
  assert (d <> p) by (intros ->; congruence).
  assert (d <> a) by (intros ->; congruence).
  unfold dlist_remove, call_memhandler. repeat step.
  cbn [is_null_fn]. repeat step. reflexivity.
Qed.


Section Discard.
Variables (t : ptr) (cmp : CompareFunction) (kf vf : funptr) (l hd : ptr).

Lemma discarded_other s p dp n c a :
  a <> p -> a <> c_addr c -> a <> c_data c ->
  heap (discarded kf vf p dp n c s) !! a = heap s !! a.
Proof.
  intros. cbn [discarded heap].
  rewrite !lookup_delete_ne, lookup_insert_ne by congruence. reflexivity.
Qed.

Lemma discarded_pos s p dp n c :
  p <> c_addr c -> p <> c_data c ->
  heap (discarded kf vf p dp n c s) !! p = Some (CNode n dp).
Proof.
  intros. cbn [discarded heap].
  rewrite !lookup_delete_ne, lookup_insert_eq by congruence. reflexivity.
Qed.

Lemma discarded_heap_ok s p dp dp' n n' c :
  heap_ok s -> heap s !! p = Some (CNode n' dp') ->
  heap_ok (discarded kf vf p dp n c s).
Proof.
  intros [Hb Hall] Hp. split; [exact Hb|]. cbn [discarded heap brk].
  do 2 apply map_Forall_delete. apply map_Forall_insert_2; [|exact Hall].
  exact (Hall _ _ Hp).
Qed.

(** A chain that avoids the position and the discarded cell survives. *)
Lemma discarded_chain s p dp n c a cs q :
  chain (heap s) a cs q ->
  p ∉ c_addr <$> cs -> c_addr c ∉ c_addr <$> cs -> c_data c ∉ c_data <$> cs ->
  (exists pn pd, heap s !! p = Some (CNode pn pd)) ->
  (exists cn cd, heap s !! c_addr c = Some (CNode cn cd)) ->
  (exists ck cv, heap s !! c_data c = Some (CElem ck cv)) ->
  chain (heap (discarded kf vf p dp n c s)) a cs q.
Proof.
  intros Hch Hp Hc Hd (pn & pd & Hpn) (cn & cd & Hcn) (ck & cv & Hck).
  eapply chain_ext; [|exact Hch]. intros x [Hx|Hx].
  - destruct (chain_addr_is_node _ _ _ _ _ Hch Hx) as (xn & xd & Hxn).
    apply discarded_other.
    + intros ->. contradiction.
    + intros ->. contradiction.
    + intros ->. congruence.
  - destruct (chain_data_is_elem _ _ _ _ _ Hch Hx) as (xk & xv & Hxk).
    apply discarded_other.
    + intros ->. congruence.
    + intros ->. congruence.
    + intros ->. contradiction.
Qed.

(** One iteration of [table_remove] on a matching entry. *)
Lemma remove_loop_match key fuel p dp c n s :
  t <> NULL -> heap s !! t = Some (CTable l (Some cmp) kf vf) ->
  l <> NULL -> heap s !! l = Some (CList hd FLibcFree) ->
  p <> NULL -> heap s !! p = Some (CNode (c_addr c) dp) ->
  c_addr c <> NULL -> heap s !! c_addr c = Some (CNode n (c_data c)) ->
  c_data c <> NULL -> heap s !! c_data c = Some (CElem (c_key c) (c_value c)) ->
  c_addr c <> p ->
  matches cmp key (entry_of c) = true ->
  table_remove_loop (S fuel) t key p s =
  table_remove_loop fuel t key p
    (discarded kf vf p dp n c (log [EvCompare (c_key c) key] s)).
Proof.
  intros Ht Htab Hl Hlist Hp Hnode Ha Hanode Hd Helem Hap Hm.
  cbn [table_remove_loop]. unfold dlist_isEnd, dlist_inspect.
  repeat step. rewrite eqb_NULL_false by assumption. repeat step.
  unfold matches in Hm. cbn [entry_of fst] in Hm. rewrite Hm. repeat step.
  erewrite bind_done by (eapply dlist_remove_run; try eassumption; side_lookup).
  f_equal. unfold discarded, destroy_events. cbn [heap brk quota trace log entry_of fst snd].
  f_equal. rewrite <- !app_assoc. reflexivity.
Qed.

(** One iteration of [table_remove] on an entry that does not match. *)
Lemma remove_loop_skip key fuel p dp c n s :
  t <> NULL -> heap s !! t = Some (CTable l (Some cmp) kf vf) ->
  p <> NULL -> heap s !! p = Some (CNode (c_addr c) dp) ->
  c_addr c <> NULL -> heap s !! c_addr c = Some (CNode n (c_data c)) ->
  c_data c <> NULL -> heap s !! c_data c = Some (CElem (c_key c) (c_value c)) ->
  matches cmp key (entry_of c) = false ->
  table_remove_loop (S fuel) t key p s =
  table_remove_loop fuel t key (c_addr c) (log [EvCompare (c_key c) key] s).
Proof.
  intros Ht Htab Hp Hnode Ha Hanode Hd Helem Hm.
  cbn [table_remove_loop]. unfold dlist_isEnd, dlist_inspect, dlist_next.
  repeat step. rewrite eqb_NULL_false by assumption. repeat step.
  unfold matches in Hm. cbn [entry_of fst] in Hm. rewrite Hm. repeat step.
  reflexivity.
Qed.

Lemma remove_loop_end key fuel p dp s :
  t <> NULL -> heap s !! t = Some (CTable l (Some cmp) kf vf) ->
  p <> NULL -> heap s !! p = Some (CNode NULL dp) ->
  table_remove_loop (S fuel) t key p s = Done tt s.
Proof.
  intros Ht Htab Hp Hnode. cbn [table_remove_loop]. unfold dlist_isEnd.
  repeat step. reflexivity.
Qed.

(** One iteration of [table_free]. *)
Lemma free_loop_step fuel p dp c n s :
  t <> NULL -> heap s !! t = Some (CTable l (Some cmp) kf vf) ->
  l <> NULL -> heap s !! l = Some (CList hd FLibcFree) ->
  p <> NULL -> heap s !! p = Some (CNode (c_addr c) dp) ->
  c_addr c <> NULL -> heap s !! c_addr c = Some (CNode n (c_data c)) ->
  c_data c <> NULL -> heap s !! c_data c = Some (CElem (c_key c) (c_value c)) ->
  c_addr c <> p ->
  table_free_loop (S fuel) t p s =
  table_free_loop fuel t p (discarded kf vf p dp n c s).
Proof.
  intros Ht Htab Hl Hlist Hp Hnode Ha Hanode Hd Helem Hap.
  cbn [table_free_loop]. unfold dlist_isEnd, dlist_inspect.
  repeat step. rewrite eqb_NULL_false by assumption. repeat step.
  erewrite bind_done by (eapply dlist_remove_run; try eassumption; side_lookup).
  f_equal. unfold discarded, destroy_events. cbn [heap brk quota trace log entry_of fst snd].
  f_equal. rewrite <- !app_assoc. reflexivity.
Qed.

Lemma free_loop_end fuel p dp s :
  t <> NULL -> heap s !! t = Some (CTable l (Some cmp) kf vf) ->
  p <> NULL -> heap s !! p = Some (CNode NULL dp) ->
  table_free_loop (S fuel) t p s = Done tt s.
Proof.
  intros Ht Htab Hp Hnode. cbn [table_free_loop]. unfold dlist_isEnd.
  repeat step. reflexivity.
Qed.

End Discard.


Section RemoveLoop.
Variables (t : ptr) (cmp : CompareFunction) (kf vf : funptr) (l hd : ptr) (key : KEY).

Lemma table_remove_loop_spec cs : forall p n dp s fuel,
  heap_ok s ->
  t <> NULL -> heap s !! t = Some (CTable l (Some cmp) kf vf) ->
  l <> NULL -> heap s !! l = Some (CList hd FLibcFree) ->
  p <> NULL -> heap s !! p = Some (CNode n dp) ->
  chain (heap s) n cs NULL ->
  NoDup (p :: (c_addr <$> cs)) -> NoDup (c_data <$> cs) ->
  (length cs < fuel)%nat ->
  exists s' n',
    table_remove_loop fuel t key p s = Done tt s' /\
    heap_ok s' /\
    heap s' !! p = Some (CNode n' dp) /\
    chain (heap s') n' (filter (fun c => survives cmp key (entry_of c)) cs) NULL /\
    (forall a, a <> p -> a ∉ c_addr <$> cs -> a ∉ c_data <$> cs ->
               heap s' !! a = heap s !! a) /\
    trace s' = trace s ++ flat_map (remove_events cmp kf vf key) (entry_of <$> cs) /\
    brk s' = brk s /\
    quota s' = (quota s + 2 * length (filter (fun e => matches cmp key e = true) (entry_of <$> cs)))%nat.
Proof.
  induction cs as [|c cs IH];
    intros p n dp s fuel Hok Ht Htab Hl Hlist Hp Hnode Hch Hnd Hndd Hfuel;
    (destruct fuel as [|fuel]; [clear - Hfuel; lia|]).
  - cbn [chain] in Hch. subst n. exists s, NULL.
    split; [eapply remove_loop_end; eauto|].
    split; [assumption|]. split; [assumption|]. split; [reflexivity|].
    split; [reflexivity|]. cbn. rewrite app_nil_r. repeat split. clear; lia.
  - assert (Hfuel' : (length cs < fuel)%nat) by (cbn [length] in Hfuel; clear - Hfuel; lia).
    clear Hfuel.
    pose proof Hch as Hch0.
    destruct Hch as (-> & Ha & Hd & He & n2 & Hc & Hrest).
    rewrite fmap_cons in Hnd, Hndd.
    apply NoDup_cons in Hnd as [Hp_out Hnd].
    apply not_elem_of_cons in Hp_out as [Hpc Hp_out].
    pose proof Hnd as Hnd'. apply NoDup_cons in Hnd' as [Hc_out Hnd_cs].
    apply NoDup_cons in Hndd as [Hd_out Hndd_cs].
    assert (Hdp : c_data c <> p) by (intros E; rewrite E in He; congruence).
    assert (Hdc : c_data c <> c_addr c) by (intros E; rewrite E in He; congruence).
    assert (Hd_addr : c_data c ∉ c_addr <$> cs).
    { intros Hin. destruct (chain_addr_is_node _ _ _ _ _ Hrest Hin) as (? & ? & ?).
      congruence. }
    assert (Hp_data : p ∉ c_data <$> cs).
    { intros Hin. destruct (chain_data_is_elem _ _ _ _ _ Hrest Hin) as (? & ? & ?).
      congruence. }
    assert (Hc_data : c_addr c ∉ c_data <$> cs).
    { intros Hin. destruct (chain_data_is_elem _ _ _ _ _ Hrest Hin) as (? & ? & ?).
      congruence. }
    destruct (matches cmp key (entry_of c)) eqn:Hm.
    + (* the entry is removed; the position stays *)
      erewrite remove_loop_match by (eauto; congruence).
      set (s1 := discarded kf vf p dp n2 c (log [EvCompare (c_key c) key] s)).
      assert (Htp : t <> p) by (intros ->; congruence).
      assert (Htc : t <> c_addr c) by (intros ->; congruence).
      assert (Htd : t <> c_data c) by (intros ->; congruence).
      assert (Hlp : l <> p) by (intros ->; congruence).
      assert (Hlc : l <> c_addr c) by (intros ->; congruence).
      assert (Hld : l <> c_data c) by (intros ->; congruence).
      destruct (IH p n2 dp s1 fuel) as (s' & n' & Hrun & Hok' & Hpos & Hch' & Hframe & Htr & Hbrk & Hq);
        try assumption.
      * eapply discarded_heap_ok; [|exact Hnode]. exact Hok.
      * unfold s1. rewrite discarded_other by assumption. exact Htab.
      * unfold s1. rewrite discarded_other by assumption. exact Hlist.
      * unfold s1. apply discarded_pos; congruence.
      * unfold s1. eapply discarded_chain; eauto.
      * apply NoDup_cons. split; assumption.
      * exists s', n'. split; [exact Hrun|]. split; [exact Hok'|].
        split; [exact Hpos|]. split.
        { rewrite filter_cons_False; [exact Hch'|].
          unfold survives. rewrite Hm. discriminate. }
        split.
        { intros a Hap Ha1 Ha2. rewrite fmap_cons in Ha1, Ha2.
          apply not_elem_of_cons in Ha1 as [? ?]. apply not_elem_of_cons in Ha2 as [? ?].
          rewrite Hframe by assumption. unfold s1.
          rewrite discarded_other by assumption. reflexivity. }
        split.
        { rewrite Htr. unfold s1. cbn [discarded trace log fmap list_fmap flat_map].
          unfold remove_events at 2. rewrite Hm. rewrite <- !app_assoc. reflexivity. }
        split; [rewrite Hbrk; reflexivity|].
        rewrite Hq. unfold s1. cbn [discarded quota log fmap list_fmap].
        rewrite filter_cons_True by exact Hm. cbn [length]. clear. lia.
    + (* the entry stays; the position moves onto it *)
      erewrite remove_loop_skip by eauto.
      set (s1 := log [EvCompare (c_key c) key] s).
      destruct (IH (c_addr c) n2 (c_data c) s1 fuel)
        as (s' & n' & Hrun & Hok' & Hpos & Hch' & Hframe & Htr & Hbrk & Hq);
        try assumption.
      * exists s', (c_addr c). split; [exact Hrun|]. split; [exact Hok'|].
        split; [rewrite Hframe by assumption; exact Hnode|]. split.
        { rewrite filter_cons_True by exact Hm. cbn [chain].
          split; [reflexivity|]. do 2 (split; [assumption|]).
          split; [rewrite Hframe by assumption; exact He|].
          exists n'. split; [exact Hpos | exact Hch']. }
        split.
        { intros a Hap Ha1 Ha2. rewrite fmap_cons in Ha1, Ha2.
          apply not_elem_of_cons in Ha1 as [? ?]. apply not_elem_of_cons in Ha2 as [? ?].
          rewrite Hframe by assumption. reflexivity. }
        split.
        { rewrite Htr. unfold s1. cbn [trace log fmap list_fmap flat_map].
          unfold remove_events at 2. rewrite Hm. rewrite <- !app_assoc. reflexivity. }
        split; [rewrite Hbrk; reflexivity|].
        rewrite Hq. unfold s1. cbn [quota log fmap list_fmap].
        rewrite filter_cons_False; [reflexivity|]. rewrite Hm. discriminate.
Qed.

End RemoveLoop.

Section FreeLoop.
Variables (t : ptr) (cmp : CompareFunction) (kf vf : funptr) (l hd : ptr).

Lemma table_free_loop_spec p dp cs : forall n s fuel,
  heap_ok s ->
  t <> NULL -> heap s !! t = Some (CTable l (Some cmp) kf vf) ->
  l <> NULL -> heap s !! l = Some (CList hd FLibcFree) ->
  p <> NULL -> heap s !! p = Some (CNode n dp) ->
  chain (heap s) n cs NULL ->
  NoDup (p :: (c_addr <$> cs)) -> NoDup (c_data <$> cs) ->
  (length cs < fuel)%nat ->
  exists s',
    table_free_loop fuel t p s = Done tt s' /\
    heap_ok s' /\
    heap s' !! p = Some (CNode NULL dp) /\
    (forall a, a <> p -> a ∉ c_addr <$> cs -> a ∉ c_data <$> cs ->
               heap s' !! a = heap s !! a) /\
    trace s' = trace s ++ flat_map (destroy_events kf vf) (entry_of <$> cs) /\
    brk s' = brk s /\
    quota s' = (quota s + 2 * length cs)%nat.
Proof.
  induction cs as [|c cs IH];
    intros n s fuel Hok Ht Htab Hl Hlist Hp Hnode Hch Hnd Hndd Hfuel;
    (destruct fuel as [|fuel]; [clear - Hfuel; lia|]).
  - cbn [chain] in Hch. subst n. exists s.
    split; [eapply free_loop_end; eauto|].
    split; [assumption|]. split; [assumption|]. split; [reflexivity|].
    cbn. rewrite app_nil_r. repeat split. clear; lia.
  - assert (Hfuel' : (length cs < fuel)%nat) by (cbn [length] in Hfuel; clear - Hfuel; lia).
    clear Hfuel.
    destruct Hch as (-> & Ha & Hd & He & n2 & Hc & Hrest).
    rewrite fmap_cons in Hnd, Hndd.
    apply NoDup_cons in Hnd as [Hp_out Hnd].
    apply not_elem_of_cons in Hp_out as [Hpc Hp_out].
    apply NoDup_cons in Hnd as [Hc_out Hnd_cs].
    apply NoDup_cons in Hndd as [Hd_out Hndd_cs].
    erewrite free_loop_step by (eauto; congruence).
    set (s1 := discarded kf vf p dp n2 c s).
    assert (Htp : t <> p) by (intros ->; congruence).
    assert (Htc : t <> c_addr c) by (intros ->; congruence).
    assert (Htd : t <> c_data c) by (intros ->; congruence).
    assert (Hlp : l <> p) by (intros ->; congruence).
    assert (Hlc : l <> c_addr c) by (intros ->; congruence).
    assert (Hld : l <> c_data c) by (intros ->; congruence).
    assert (Hdp : c_data c <> p) by (intros E; rewrite E in He; congruence).
    destruct (IH n2 s1 fuel) as (s' & Hrun & Hok' & Hpos & Hframe & Htr & Hbrk & Hq);
      try assumption.
    + eapply discarded_heap_ok; [|exact Hnode]. exact Hok.
    + unfold s1. rewrite discarded_other by assumption. exact Htab.
    + unfold s1. rewrite discarded_other by assumption. exact Hlist.
    + unfold s1. apply discarded_pos; congruence.
    + unfold s1. eapply discarded_chain; eauto.
    + apply NoDup_cons. split; assumption.
    + exists s'. split; [exact Hrun|]. split; [exact Hok'|].
      split; [exact Hpos|]. split.
      { intros a Hap Ha1 Ha2. rewrite fmap_cons in Ha1, Ha2.
        apply not_elem_of_cons in Ha1 as [? ?]. apply not_elem_of_cons in Ha2 as [? ?].
        rewrite Hframe by assumption. unfold s1.
        rewrite discarded_other by assumption. reflexivity. }
      split.
      { rewrite Htr. unfold s1. cbn [discarded trace fmap list_fmap flat_map].
        rewrite <- !app_assoc. reflexivity. }
      split; [rewrite Hbrk; reflexivity|].
      rewrite Hq. unfold s1. cbn [discarded quota length]. clear. lia.
Qed.

End FreeLoop.

(** ** Whole operations on a well-formed table *)

Lemma table_rep_log s t cmp kf vf l hd jd first cs evs :
  table_rep s t cmp kf vf l hd jd first cs ->
  table_rep (log evs s) t cmp kf vf l hd jd first cs.
Proof. intros []. constructor; assumption. Qed.

Lemma filter_entries cmp key (cs : list entry_cell) :
  entry_of <$> filter (fun c => survives cmp key (entry_of c)) cs =
  filter (survives cmp key) (entry_of <$> cs).
Proof.
  induction cs as [|c cs IH]; [reflexivity|].
  rewrite fmap_cons, !filter_cons.
  destruct (decide (survives cmp key (entry_of c))); rewrite ?fmap_cons, IH; reflexivity.
Qed.

Lemma table_remove_rep s t cmp kf vf l hd jd first cs key fuel :
  table_rep s t cmp kf vf l hd jd first cs ->
  (length cs < fuel)%nat ->
  exists s' first',
    table_remove fuel t key s = Done tt s' /\
    table_rep s' t cmp kf vf l hd jd first'
      (filter (fun c => survives cmp key (entry_of c)) cs) /\
    trace s' = trace s ++ flat_map (remove_events cmp kf vf key) (entry_of <$> cs) /\
    brk s' = brk s /\
    quota s' = (quota s + 2 * length (filter (fun e => matches cmp key e = true) (entry_of <$> cs)))%nat.
Proof.
  intros [] Hfuel.
  destruct (table_remove_loop_spec t cmp kf vf l hd key cs hd first jd s fuel)
    as (s' & n' & Hrun & Hok' & Hpos & Hch' & Hframe & Htr & Hbrk & Hq); try assumption.
  assert (Ht_out : t <> hd /\ (t ∉ c_addr <$> cs) /\ (t ∉ c_data <$> cs)).
  { split; [intros ->; congruence|]. split; intros Hin.
    - destruct (chain_addr_is_node _ _ _ _ _ rep_chain0 Hin) as (? & ? & ?). congruence.
    - destruct (chain_data_is_elem _ _ _ _ _ rep_chain0 Hin) as (? & ? & ?). congruence. }
  assert (Hl_out : l <> hd /\ (l ∉ c_addr <$> cs) /\ (l ∉ c_data <$> cs)).
  { split; [intros ->; congruence|]. split; intros Hin.
    - destruct (chain_addr_is_node _ _ _ _ _ rep_chain0 Hin) as (? & ? & ?). congruence.
    - destruct (chain_data_is_elem _ _ _ _ _ rep_chain0 Hin) as (? & ? & ?). congruence. }
  destruct Ht_out as (? & ? & ?), Hl_out as (? & ? & ?).
  exists s', n'. split.
  { unfold table_remove, dlist_first. repeat step. exact Hrun. }
  split; [|auto].
  constructor; try assumption.
  - rewrite Hframe by assumption. assumption.
  - rewrite Hframe by assumption. assumption.
  - apply NoDup_cons in rep_nodup_cells0 as [Hhd_out Hnd]. apply NoDup_cons. split.
    + intros Hin. apply Hhd_out. eapply elem_of_sublist; [exact Hin|].
      apply fmap_sublist, sublist_filter.
    + eapply sublist_NoDup; [exact Hnd|]. apply fmap_sublist, sublist_filter.
  - eapply sublist_NoDup; [exact rep_nodup_data0|]. apply fmap_sublist, sublist_filter.
Qed.

Lemma table_free_rep s t cmp kf vf l hd jd first cs fuel :
  table_rep s t cmp kf vf l hd jd first cs ->
  (length cs < fuel)%nat ->
  exists s',
    table_free fuel t s = Done tt s' /\
    heap s' !! t = None /\
    trace s' = trace s ++ flat_map (destroy_events kf vf) (entry_of <$> cs) /\
    quota s' = (quota s + 2 * length cs + 3)%nat.
Proof.
  intros [] Hfuel.
  destruct (table_free_loop_spec t cmp kf vf l hd hd jd cs first s fuel)
    as (s1 & Hrun & Hok' & Hpos & Hframe & Htr & Hbrk & Hq); try assumption.
  assert (Ht_out : t <> hd /\ (t ∉ c_addr <$> cs) /\ (t ∉ c_data <$> cs)).
  { split; [intros ->; congruence|]. split; intros Hin.
    - destruct (chain_addr_is_node _ _ _ _ _ rep_chain0 Hin) as (? & ? & ?). congruence.
    - destruct (chain_data_is_elem _ _ _ _ _ rep_chain0 Hin) as (? & ? & ?). congruence. }
  assert (Hl_out : l <> hd /\ (l ∉ c_addr <$> cs) /\ (l ∉ c_data <$> cs)).
  { split; [intros ->; congruence|]. split; intros Hin.
    - destruct (chain_addr_is_node _ _ _ _ _ rep_chain0 Hin) as (? & ? & ?). congruence.
    - destruct (chain_data_is_elem _ _ _ _ _ rep_chain0 Hin) as (? & ? & ?). congruence. }
  destruct Ht_out as (Hthd & ? & ?), Hl_out as (Hlhd & ? & ?).
  assert (Htab1 : heap s1 !! t = Some (CTable l (Some cmp) kf vf))
    by (rewrite Hframe by assumption; assumption).
  assert (Hlist1 : heap s1 !! l = Some (CList hd FLibcFree))
    by (rewrite Hframe by assumption; assumption).
  assert (Htl : t <> l) by (intros ->; congruence).
  destruct fuel as [|fuel]; [clear - Hfuel; lia|].
  eexists. split.
  { unfold table_free, dlist_first. repeat step.
    erewrite bind_done by exact Hrun.
    unfold dlist_free, dlist_first. repeat step.
    cbn [dlist_free_loop]. unfold dlist_isEnd. repeat step.
    rewrite Z.eqb_refl. repeat step. last_step. }
  cbn [heap brk quota trace]. split; [apply lookup_delete_eq|].
  split; [exact Htr|]. rewrite Hq. clear. lia.
Qed.

Lemma table_create_rep s cmp :
  heap_ok s -> (3 <= quota s)%nat ->
  exists s',
    table_create cmp s = Done (brk s) s' /\
    table_rep s' (brk s) cmp FNull FNull (brk s + 1) (brk s + 2) NULL NULL [] /\
    trace s' = trace s.
Proof.
  intros Hok Hq. pose proof Hok as [Hb Hall].
  destruct (quota s) as [|[|[|q]]] eqn:Eq; try (clear - Hq; lia). clear Hq.
  assert (Hb0 : brk s <> NULL) by (unfold NULL; clear - Hb; lia).
  assert (Hb1 : brk s + 1 <> NULL) by (unfold NULL; clear - Hb; lia).
  assert (Hb2 : brk s + 1 + 1 <> NULL) by (unfold NULL; clear - Hb; lia).
  assert (Hb01 : brk s <> brk s + 1) by (clear; lia).
  assert (Hb02 : brk s <> brk s + 1 + 1) by (clear; lia).
  assert (Hb12 : brk s + 1 <> brk s + 1 + 1) by (clear; lia).
  eexists. split.
  { unfold table_create, dlist_empty, dlist_setMemHandler.
    step_malloc. rewrite eqb_NULL_false by assumption.
    step_malloc. step_malloc. repeat step. reflexivity. }
  cbn [heap brk quota trace set_heap log]. split; [|reflexivity].
  replace (brk s + 2) with (brk s + 1 + 1) by (clear; lia).
  constructor; cbn [heap brk quota trace set_heap log chain fmap list_fmap];
    try assumption; try reflexivity; try side_lookup.
  - unfold heap_ok. cbn [heap brk quota trace set_heap log].
    split; [clear - Hb; lia|].
    assert (Hall' : map_Forall (fun (a : Z) (_ : cell) => 0 < a < brk s + 1 + 1 + 1) (heap s)).
    { intros a c Ha. pose proof (Hall a c Ha) as Hx. cbn beta in Hx |- *.
      clear - Hx. lia. }
    repeat apply map_Forall_insert_2; try assumption; clear - Hb; lia.
  - apply NoDup_singleton.
  - apply NoDup_nil_2.
Qed.

Lemma table_isEmpty_rep s t cmp kf vf l hd jd first cs :
  table_rep s t cmp kf vf l hd jd first cs ->
  table_isEmpty t s = Done (match cs with [] => true | _ => false end) s.
Proof.
  intros []. unfold table_isEmpty, dlist_isEmpty. repeat step.
  destruct cs as [|c cs]; cbn [chain] in rep_chain0.
  - subst first. reflexivity.
  - destruct rep_chain0 as (-> & Hn & _). rewrite eqb_NULL_false by assumption.
    reflexivity.
Qed.

(** ** The operations in terms of the entries a table holds *)

Section Abstract.
Variables (t : ptr) (cmp : CompareFunction) (kf vf : funptr).

Lemma table_is_log s es evs :
  table_is s t cmp kf vf es -> table_is (log evs s) t cmp kf vf es.
Proof.
  intros (l & hd & jd & first & cs & Hrep & ->).
  exists l, hd, jd, first, cs. split; [|reflexivity]. apply table_rep_log. exact Hrep.
Qed.

Lemma table_lookup_miss s es key fuel :
  table_is s t cmp kf vf es ->
  Forall (fun e => matches cmp key e = false) es ->
  (length es < fuel)%nat ->
  table_lookup fuel t key s = Done NULL (log (compare_events key es) s).
Proof.
  intros (l & hd & jd & first & cs & Hrep & ->) Hall Hfuel.
  eapply table_lookup_miss_rep; [exact Hrep| |].
  - apply Forall_fmap in Hall. exact Hall.
  - rewrite length_fmap in Hfuel. exact Hfuel.
Qed.

Lemma table_lookup_front s e rest key fuel :
  table_is s t cmp kf vf (e :: rest) ->
  matches cmp key e = true ->
  (0 < fuel)%nat ->
  exists s',
    table_lookup fuel t key s = Done e.2 s' /\
    table_is s' t cmp kf vf rest /\
    trace s' = trace s ++ [EvCompare e.1 key] /\
    brk s' = brk s /\ quota s' = quota s.
Proof.
  intros (l & hd & jd & first & cs & Hrep & Hes) Hm Hfuel.
  symmetry in Hes. apply fmap_cons_inv in Hes as (m & post & -> & -> & ->).
  destruct (table_lookup_front_rep t cmp kf vf key s l hd jd first m post fuel Hrep Hm Hfuel)
    as (s' & nx & Hrun & Hrep' & _ & Htr & Hbrk & Hq).
  exists s'. split; [exact Hrun|]. split; [|auto].
  exists l, hd, jd, nx, post. split; [exact Hrep' | reflexivity].
Qed.

Lemma table_lookup_promote s skipped e rest key fuel :
  table_is s t cmp kf vf (skipped ++ e :: rest) ->
  skipped <> [] ->
  Forall (fun e => matches cmp key e = false) skipped ->
  matches cmp key e = true ->
  (length skipped < fuel)%nat ->
  exists s',
    table_lookup fuel t key s = Done e.2 s' /\
    table_is s' t cmp kf vf (e :: skipped ++ rest) /\
    trace s' = trace s ++ compare_events key (skipped ++ [e]) /\
    brk s' = brk s /\ quota s' = quota s.
Proof.
  intros (l & hd & jd & first & cs & Hrep & Hes) Hne Hall Hm Hfuel.
  symmetry in Hes. apply fmap_app_inv in Hes as (cs1 & cs2 & -> & Hes2 & ->).
  symmetry in Hes2. apply fmap_cons_inv in Hes2 as (m & post & -> & -> & ->).
  destruct cs1 as [|pc pre _] using rev_ind; [contradiction|].
  apply Forall_fmap in Hall. rewrite length_fmap in Hfuel.
  destruct (table_lookup_promote_rep t cmp kf vf key s l hd jd first pre pc m post fuel
              Hrep Hall Hm Hfuel) as (s' & Hrun & Hrep' & Htr & Hbrk & Hq).
  exists s'. split; [exact Hrun|].
  split; [|split; [|auto]].
  - exists l, hd, jd, (c_addr m), (m :: (pre ++ [pc]) ++ post).
    split; [exact Hrep'|]. rewrite fmap_cons, !fmap_app. reflexivity.
  - rewrite Htr. rewrite !fmap_app. reflexivity.
Qed.

(** Where a scan for [key] stops. *)
Lemma first_match_split (key : KEY) (es : list (KEY * VALUE)) :
  (find (matches cmp key) es = None /\
   Forall (fun e => matches cmp key e = false) es) \/
  (exists skipped e rest,
     es = skipped ++ e :: rest /\
     Forall (fun e => matches cmp key e = false) skipped /\
     matches cmp key e = true /\
     find (matches cmp key) es = Some e).
Proof.
  induction es as [|e es IH]; [left; split; [reflexivity | constructor]|].
  cbn [find]. destruct (matches cmp key e) eqn:Hm.
  - right. exists [], e, es. repeat split; [constructor | assumption].
  - destruct IH as [[Hnone Hall] | (skipped & e' & rest & -> & Hall & Hm' & Hfind)].
    + left. split; [assumption|]. constructor; assumption.
    + right. exists (e :: skipped), e', rest.
      split; [reflexivity|]. split; [constructor; assumption|]. split; assumption.
Qed.

Lemma table_insert_front s es k v :
  table_is s t cmp kf vf es ->
  (2 <= quota s)%nat ->
  exists s',
    table_insert t k v s = Done tt s' /\
    table_is s' t cmp kf vf ((k, v) :: es) /\
    trace s' = trace s /\ brk s' = brk s + 2 /\ (quota s' + 2 = quota s)%nat.
Proof.
  intros (l & hd & jd & first & cs & Hrep & ->) Hq.
  destruct (table_insert_rep s t cmp kf vf l hd jd first cs k v Hrep Hq)
    as (s' & Hrun & Hrep' & Hrest).
  exists s'. split; [exact Hrun|]. split; [|exact Hrest].
  eexists l, hd, jd, _, _. split; [exact Hrep'|]. reflexivity.
Qed.

Lemma table_remove_all s es key fuel :
  table_is s t cmp kf vf es ->
  (length es < fuel)%nat ->
  exists s',
    table_remove fuel t key s = Done tt s' /\
    table_is s' t cmp kf vf (filter (survives cmp key) es) /\
    trace s' = trace s ++ flat_map (remove_events cmp kf vf key) es /\
    brk s' = brk s /\
    quota s' = (quota s + 2 * length (filter (fun e => matches cmp key e = true) es))%nat.
Proof.
  intros (l & hd & jd & first & cs & Hrep & ->) Hfuel. rewrite length_fmap in Hfuel.
  destruct (table_remove_rep s t cmp kf vf l hd jd first cs key fuel Hrep Hfuel)
    as (s' & first' & Hrun & Hrep' & Hrest).
  exists s'. split; [exact Hrun|]. split; [|exact Hrest].
  eexists l, hd, jd, first', _. split; [exact Hrep'|].
  symmetry. apply filter_entries.
Qed.

Lemma table_free_all s es fuel :
  table_is s t cmp kf vf es ->
  (length es < fuel)%nat ->
  exists s',
    table_free fuel t s = Done tt s' /\
    heap s' !! t = None /\
    trace s' = trace s ++ flat_map (destroy_events kf vf) es /\
    quota s' = (quota s + 2 * length es + 3)%nat.
Proof.
  intros (l & hd & jd & first & cs & Hrep & ->) Hfuel. rewrite length_fmap in Hfuel.
  destruct (table_free_rep s t cmp kf vf l hd jd first cs fuel Hrep Hfuel)
    as (s' & Hrun & Hgone & Htr & Hq).
  exists s'. rewrite length_fmap. auto.
Qed.

Lemma table_isEmpty_entries s es :
  table_is s t cmp kf vf es ->
  table_isEmpty t s = Done (match es with [] => true | _ => false end) s.
Proof.
  intros (l & hd & jd & first & cs & Hrep & ->).
  erewrite table_isEmpty_rep by exact Hrep. destruct cs; reflexivity.
Qed.

End Abstract.

Lemma table_create_empty s cmp :
  heap_ok s -> (3 <= quota s)%nat ->
  exists s',
    table_create cmp s = Done (brk s) s' /\
    brk s <> NULL /\
    table_is s' (brk s) cmp FNull FNull [] /\
    trace s' = trace s.
Proof.
  intros Hok Hq. destruct (table_create_rep s cmp Hok Hq) as (s' & Hrun & Hrep & Htr).
  exists s'. split; [exact Hrun|]. split; [exact (rep_t_nonnull _ _ _ _ _ _ _ _ _ _ Hrep)|].
  split; [|exact Htr]. eexists _, _, _, _, []. split; [exact Hrep | reflexivity].
Qed.

(** With both destructors unregistered, discarding entries calls nothing. *)
Lemma remove_events_no_destructors cmp key es :
  Forall (fun ev => is_destructor_call ev = false)
    (flat_map (remove_events cmp FNull FNull key) es).
Proof.
  induction es as [|e es IH]; [constructor|].
  cbn [flat_map]. unfold remove_events at 1, destroy_events. cbn [is_null_fn app].
  destruct (matches cmp key e); cbn [app]; constructor; try reflexivity; exact IH.
Qed.

Lemma destroy_events_unregistered es :
  flat_map (destroy_events FNull FNull) es = [].
Proof. induction es as [|e es IH]; [reflexivity|]. cbn. exact IH. Qed.

(** The destructor calls among the events of one [table_remove]. *)
Lemma remove_events_destructors cmp kf vf key es :
  filter (fun ev => is_destructor_call ev = true)
    (flat_map (remove_events cmp kf vf key) es) =
  flat_map (destroy_events kf vf) (filter (fun e => matches cmp key e = true) es).
Proof.
  induction es as [|e es IH]; [reflexivity|].
  cbn [flat_map]. rewrite filter_app, IH. unfold remove_events at 1.
  rewrite filter_cons_False by (cbn; discriminate).
  rewrite filter_cons. destruct (matches cmp key e) eqn:Hm.
  - rewrite decide_True by reflexivity. cbn [flat_map]. f_equal.
    unfold destroy_events. destruct kf, vf; reflexivity.
  - rewrite decide_False by discriminate. reflexivity.
Qed.

(** ** Concrete tables *)


(** Decide the shape of a concrete heap by evaluation. *)
Ltac concrete_chain :=
  cbn [chain c_addr c_data c_key c_value];
  repeat match goal with
         | |- _ /\ _ => split
         | |- exists n, ?h !! ?p = Some (CNode n _) /\ _ =>
             let v := eval vm_compute in (h !! p) in
             match v with Some (CNode ?n _) => exists n end
         | |- _ <> _ => discriminate
         | |- _ = _ => vm_compute; reflexivity
         end.

Ltac decide_by_eval :=
  match goal with
  | |- ?G => apply (bool_decide_unpack G); vm_compute; exact I
  end.

Ltac concrete_table l hd jd first cs :=
  exists l, hd, jd, first, cs; split; [constructor | vm_compute; reflexivity];
  [ apply (bool_decide_unpack (heap_ok _)); vm_compute; exact I
  | discriminate
  | vm_compute; reflexivity
  | discriminate
  | vm_compute; reflexivity
  | discriminate
  | vm_compute; reflexivity
  | concrete_chain
  | decide_by_eval
  | decide_by_eval ].

Module ScenarioFacts.
Import Scenario.

Lemma boot_ok : heap_ok boot.
Proof. apply (bool_decide_unpack (heap_ok _)). vm_compute. exact I. Qed.

Lemma sA_table :
  table_is sA tA numcmp FNull FNull [(3, str_c); (2, str_b); (1, str_a)].
Proof.
  concrete_table 2 3 0
    9 [EntryCell 9 8 3 str_c; EntryCell 7 6 2 str_b; EntryCell 5 4 1 str_a].
Qed.

Lemma sN_table :
  table_is sN tA numcmp FNull FNull [(2, str_b); (1, NULL)].
Proof.
  concrete_table 2 3 0 7 [EntryCell 7 6 2 str_b; EntryCell 5 4 1 NULL].
Qed.

Lemma sD_table :
  table_is sD tA numcmp key_destructor value_destructor [(1, str_a)].
Proof.
  concrete_table 2 3 0 5 [EntryCell 5 4 1 str_a].
Qed.

End ScenarioFacts.

(** ** [table_remove] when nothing matches *)

Lemma table_remove_loop_scan t cmp kf vf l key cs : forall p n dp s fuel,
  t <> NULL -> heap s !! t = Some (CTable l (Some cmp) kf vf) ->
  p <> NULL -> heap s !! p = Some (CNode n dp) ->
  chain (heap s) n cs NULL ->
  Forall (fun c => matches cmp key (entry_of c) = false) cs ->
  (length cs < fuel)%nat ->
  table_remove_loop fuel t key p s =
  Done tt (log (compare_events key (entry_of <$> cs)) s).
Proof.
  induction cs as [|c cs IH]; intros p n dp s fuel Ht Htab Hp Hnode Hch Hall Hfuel;
    (destruct fuel as [|fuel]; [clear - Hfuel; lia|]).
  - cbn [chain] in Hch. subst n. cbn [fmap list_fmap compare_events]. rewrite log_nil.
    eapply remove_loop_end; eauto.
  - assert (Hfuel' : (length cs < fuel)%nat) by (cbn [length] in Hfuel; clear - Hfuel; lia).
    apply Forall_cons in Hall as [Hm Hall].
    destruct Hch as (-> & Ha & Hd & He & n2 & Hc & Hrest).
    erewrite remove_loop_skip by eauto.
    erewrite (IH (c_addr c) n2 (c_data c)); eauto.
    rewrite log_log. reflexivity.
Qed.

Lemma table_remove_nomatch t cmp kf vf s es key fuel :
  table_is s t cmp kf vf es ->
  Forall (fun e => matches cmp key e = false) es ->
  (length es < fuel)%nat ->
  table_remove fuel t key s = Done tt (log (compare_events key es) s).
Proof.
  intros (l & hd & jd & first & cs & [] & ->) Hall Hfuel.
  apply Forall_fmap in Hall. rewrite length_fmap in Hfuel.
  unfold table_remove, dlist_first. repeat step.
  eapply table_remove_loop_scan; eauto.
Qed.

(** * The claims *)

(** C1.  On the table of scenario A (front-to-back 3,2,1), the lookup of
    key 1 returns "a" and leaves the order 1,3,2, as the claim says; but the
    lookup of key 3, whose entry is already at the front, returns "c" and
    leaves the order 2,1: the matched entry is not at the front afterwards,
    it is gone from the sequence. *)
Theorem scenario_A_lookup_orders :
  contents 8 Scenario.tA Scenario.sA = Some [(3, 99); (2, 98); (1, 97)] /\
  Scenario.result_of (table_lookup 8 Scenario.tA 1 Scenario.sA) = Some Scenario.str_a /\
  contents 8 Scenario.tA (Scenario.state_of (table_lookup 8 Scenario.tA 1 Scenario.sA))
    = Some [(1, 97); (3, 99); (2, 98)] /\
  Scenario.result_of (table_lookup 8 Scenario.tA 3 Scenario.sA) = Some Scenario.str_c /\
  contents 8 Scenario.tA (Scenario.state_of (table_lookup 8 Scenario.tA 3 Scenario.sA))
    = Some [(2, 98); (1, 97)].
Proof. repeat split; vm_compute; reflexivity. Qed.

(** C2.  When the front entry matches, the lookup returns its value, but the
    relink is performed all the same and takes the entry out of the sequence:
    afterwards the table holds the remaining entries only. *)
Theorem lookup_front_hit_unlinks_entry s t cmp kf vf e rest key fuel :
  table_is s t cmp kf vf (e :: rest) ->
  matches cmp key e = true ->
  (0 < fuel)%nat ->
  exists s',
    table_lookup fuel t key s = Done e.2 s' /\
    table_is s' t cmp kf vf rest /\
    ~ table_is s' t cmp kf vf (e :: rest).
Proof.
  intros Htab Hm Hfuel.
  destruct (table_lookup_front t cmp kf vf s e rest key fuel Htab Hm Hfuel)
    as (s' & Hrun & Htab' & _).
  exists s'. split; [exact Hrun|]. split; [exact Htab'|].
  intros Hbad. pose proof (table_is_functional _ _ _ _ _ _ _ _ _ _ Htab' Hbad) as E.
  apply (f_equal length) in E. cbn [length] in E. clear - E. lia.
Qed.

Lemma lookup_front_hit_unlinks_entry_witness :
  exists s',
    table_lookup 1 Scenario.tA 3 Scenario.sA = Done 99 s' /\
    table_is s' Scenario.tA Scenario.numcmp FNull FNull [(2, 98); (1, 97)] /\
    ~ table_is s' Scenario.tA Scenario.numcmp FNull FNull [(3, 99); (2, 98); (1, 97)].
Proof.
  apply (lookup_front_hit_unlinks_entry Scenario.sA Scenario.tA Scenario.numcmp
           FNull FNull (3, 99) [(2, 98); (1, 97)] 3 1%nat).
  - exact ScenarioFacts.sA_table.
  - reflexivity.
  - lia.
Defined.

(** C3.  When [malloc] cannot provide the new [TableElement], [table_insert]
    stores through the NULL pointer it got back: the run ends in a fault, and
    no result is handed to the caller. *)
Theorem insert_without_memory_faults t k v s :
  quota s = 0%nat ->
  table_insert t k v s = Fault NullDeref.
Proof.
  intros Hq. unfold table_insert, bind, malloc. rewrite Hq. reflexivity.
Qed.

Lemma insert_without_memory_faults_witness :
  table_insert Scenario.tA 4 100 Scenario.starved = Fault NullDeref.
Proof.
  apply (insert_without_memory_faults Scenario.tA 4 100 Scenario.starved).
  reflexivity.
Defined.

(** C4.  With exactly one matching entry, not at the front: one lookup moves
    it to the front; a second lookup then finds it at the front and takes it
    out of the sequence.  The table after two lookups is not the table after
    one. *)
Theorem lookup_twice_differs_from_once s t cmp kf vf skipped e rest key fuel :
  table_is s t cmp kf vf (skipped ++ e :: rest) ->
  skipped <> [] ->
  Forall (fun e' => matches cmp key e' = false) skipped ->
  matches cmp key e = true ->
  Forall (fun e' => matches cmp key e' = false) rest ->
  (length skipped < fuel)%nat ->
  exists s1 s2,
    table_lookup fuel t key s = Done e.2 s1 /\
    table_is s1 t cmp kf vf (e :: skipped ++ rest) /\
    table_lookup fuel t key s1 = Done e.2 s2 /\
    table_is s2 t cmp kf vf (skipped ++ rest) /\
    ~ table_is s2 t cmp kf vf (e :: skipped ++ rest).
Proof.
  intros Htab Hne Hskip Hm _ Hfuel.
  destruct (table_lookup_promote t cmp kf vf s skipped e rest key fuel
              Htab Hne Hskip Hm Hfuel) as (s1 & Hrun1 & Htab1 & _).
  assert (Hfuel0 : (0 < fuel)%nat) by (clear - Hfuel; lia).
  destruct (table_lookup_front t cmp kf vf s1 e (skipped ++ rest) key fuel
              Htab1 Hm Hfuel0) as (s2 & Hrun2 & Htab2 & _).
  exists s1, s2. repeat (split; [assumption|]).
  intros Hbad. pose proof (table_is_functional _ _ _ _ _ _ _ _ _ _ Htab2 Hbad) as E.
  apply (f_equal length) in E. cbn [length] in E. clear - E. lia.
Qed.

Lemma lookup_twice_differs_from_once_witness :
  exists s1 s2,
    table_lookup 3 Scenario.tA 1 Scenario.sA = Done 97 s1 /\
    table_is s1 Scenario.tA Scenario.numcmp FNull FNull [(1, 97); (3, 99); (2, 98)] /\
    table_lookup 3 Scenario.tA 1 s1 = Done 97 s2 /\
    table_is s2 Scenario.tA Scenario.numcmp FNull FNull [(3, 99); (2, 98)] /\
    ~ table_is s2 Scenario.tA Scenario.numcmp FNull FNull [(1, 97); (3, 99); (2, 98)].
Proof.
  apply (lookup_twice_differs_from_once Scenario.sA Scenario.tA Scenario.numcmp
           FNull FNull [(3, 99); (2, 98)] (1, 97) [] 1 3%nat).
  - exact ScenarioFacts.sA_table.
  - discriminate.
  - repeat constructor.
  - reflexivity.
  - constructor.
  - cbn. lia.
Defined.

(** C5.  [table_remove] deletes every entry whose key compares equal to the
    given key and keeps the others in their order; the destructor calls it
    makes are, entry by entry in list order, one call of the registered key
    destructor on the key and one call of the registered value destructor on
    the value of each removed entry, and nothing else; the storage of each
    removed entry is released; when no entry matches, the heap is left as it
    was. *)
Theorem remove_deletes_every_match s t cmp kf vf es key fuel :
  table_is s t cmp kf vf es ->
  (length es < fuel)%nat ->
  exists s' evs,
    table_remove fuel t key s = Done tt s' /\
    table_is s' t cmp kf vf (filter (survives cmp key) es) /\
    Forall (fun e => matches cmp key e = false) (filter (survives cmp key) es) /\
    trace s' = trace s ++ evs /\
    filter (fun ev => is_destructor_call ev = true) evs =
      flat_map (destroy_events kf vf) (filter (fun e => matches cmp key e = true) es) /\
    quota s' = (quota s + 2 * length (filter (fun e => matches cmp key e = true) es))%nat /\
    (Forall (fun e => matches cmp key e = false) es ->
     heap s' = heap s /\ filter (survives cmp key) es = es).
Proof.
  intros Htab Hfuel.
  destruct (table_remove_all t cmp kf vf s es key fuel Htab Hfuel)
    as (s' & Hrun & Htab' & Htr & _ & Hq).
  exists s', (flat_map (remove_events cmp kf vf key) es).
  split; [exact Hrun|]. split; [exact Htab'|]. split.
  { apply Forall_forall. intros e He. apply list_elem_of_filter in He as [He _]. exact He. }
  split; [exact Htr|]. split; [apply remove_events_destructors|]. split; [exact Hq|].
  intros Hnone.
  pose proof (table_remove_nomatch t cmp kf vf s es key fuel Htab Hnone Hfuel) as Hrun'.
  rewrite Hrun in Hrun'. injection Hrun' as ->. split; [reflexivity|].
  clear - Hnone. induction Hnone as [|e es He _ IH]; [reflexivity|].
  rewrite filter_cons_True by exact He. rewrite IH. reflexivity.
Qed.

Lemma remove_deletes_every_match_witness :
  exists s' evs,
    table_remove 4 Scenario.tA 3 Scenario.sA = Done tt s' /\
    table_is s' Scenario.tA Scenario.numcmp FNull FNull
      (filter (survives Scenario.numcmp 3) [(3, 99); (2, 98); (1, 97)]) /\
    Forall (fun e => matches Scenario.numcmp 3 e = false)
      (filter (survives Scenario.numcmp 3) [(3, 99); (2, 98); (1, 97)]) /\
    trace s' = trace Scenario.sA ++ evs /\
    filter (fun ev => is_destructor_call ev = true) evs =
      flat_map (destroy_events FNull FNull)
        (filter (fun e => matches Scenario.numcmp 3 e = true) [(3, 99); (2, 98); (1, 97)]) /\
    quota s' =
      (quota Scenario.sA +
       2 * length (filter (fun e => matches Scenario.numcmp 3 e = true)
                     [(3, 99); (2, 98); (1, 97)]%Z))%nat /\
    (Forall (fun e => matches Scenario.numcmp 3 e = false) [(3, 99); (2, 98); (1, 97)] ->
     heap s' = heap Scenario.sA /\
     filter (survives Scenario.numcmp 3) [(3, 99); (2, 98); (1, 97)]
       = [(3, 99); (2, 98); (1, 97)]).
Proof.
  apply (remove_deletes_every_match Scenario.sA Scenario.tA Scenario.numcmp
           FNull FNull [(3, 99); (2, 98); (1, 97)] 3 4%nat).
  - exact ScenarioFacts.sA_table.
  - cbn. lia.
Defined.

(** C6.  [table_insert] puts the new entry in front of all others, whatever
    keys are already present, and makes no external call (in particular none
    to the comparator); a lookup of the same key right afterwards returns the
    inserted value.  Preconditions: memory for the entry and its list cell is
    available, and the comparator finds the key equal to itself. *)
Theorem insert_at_front_then_lookup s t cmp kf vf es k v fuel :
  table_is s t cmp kf vf es ->
  (2 <= quota s)%nat ->
  cmp k k = 0 ->
  (0 < fuel)%nat ->
  exists s1 s2,
    table_insert t k v s = Done tt s1 /\
    table_is s1 t cmp kf vf ((k, v) :: es) /\
    trace s1 = trace s /\
    table_lookup fuel t k s1 = Done v s2.
Proof.
  intros Htab Hq Hrefl Hfuel.
  destruct (table_insert_front t cmp kf vf s es k v Htab Hq)
    as (s1 & Hrun1 & Htab1 & Htr & _).
  assert (Hm : matches cmp k (k, v) = true).
  { unfold matches. cbn [fst]. rewrite Hrefl. reflexivity. }
  destruct (table_lookup_front t cmp kf vf s1 (k, v) es k fuel Htab1 Hm Hfuel)
    as (s2 & Hrun2 & _).
  exists s1, s2. auto.
Qed.

Lemma insert_at_front_then_lookup_witness :
  exists s1 s2,
    table_insert Scenario.tA 2 100 Scenario.sA = Done tt s1 /\
    table_is s1 Scenario.tA Scenario.numcmp FNull FNull
      ((2, 100) :: [(3, 99); (2, 98); (1, 97)]) /\
    trace s1 = trace Scenario.sA /\
    table_lookup 1 Scenario.tA 2 s1 = Done 100 s2.
Proof.
  apply (insert_at_front_then_lookup Scenario.sA Scenario.tA Scenario.numcmp
           FNull FNull [(3, 99); (2, 98); (1, 97)] 2 100 1%nat).
  - exact ScenarioFacts.sA_table.
  - vm_compute. lia.
  - reflexivity.
  - lia.
Defined.

(** C7.  When no entry's key compares equal to the key, [table_lookup]
    compares the key with every entry, front to back, returns NULL, and
    leaves the heap exactly as it was: the table holds the same entries in
    the same order. *)
Theorem lookup_miss_changes_nothing s t cmp kf vf es key fuel :
  table_is s t cmp kf vf es ->
  Forall (fun e => matches cmp key e = false) es ->
  (length es < fuel)%nat ->
  exists s',
    table_lookup fuel t key s = Done NULL s' /\
    heap s' = heap s /\ brk s' = brk s /\ quota s' = quota s /\
    trace s' = trace s ++ compare_events key es /\
    table_is s' t cmp kf vf es.
Proof.
  intros Htab Hnone Hfuel. exists (log (compare_events key es) s).
  split; [apply (table_lookup_miss t cmp kf vf); assumption|].
  repeat (split; [reflexivity|]). apply table_is_log. exact Htab.
Qed.

Lemma lookup_miss_changes_nothing_witness :
  exists s',
    table_lookup 4 Scenario.tA 9 Scenario.sA = Done NULL s' /\
    heap s' = heap Scenario.sA /\ brk s' = brk Scenario.sA /\
    quota s' = quota Scenario.sA /\
    trace s' = trace Scenario.sA ++ compare_events 9 [(3, 99); (2, 98); (1, 97)] /\
    table_is s' Scenario.tA Scenario.numcmp FNull FNull [(3, 99); (2, 98); (1, 97)].
Proof.
  apply (lookup_miss_changes_nothing Scenario.sA Scenario.tA Scenario.numcmp
           FNull FNull [(3, 99); (2, 98); (1, 97)] 9 4%nat).
  - exact ScenarioFacts.sA_table.
  - repeat constructor.
  - cbn. lia.
Defined.

(** C8, as the code has it.  [table_lookup] returns the value stored in the
    front-most matching entry, and NULL when no entry matches.  A hit is
    therefore told apart from a miss exactly when the stored value is not
    NULL. *)
Theorem lookup_returns_stored_value_or_NULL s t cmp kf vf es key fuel :
  table_is s t cmp kf vf es ->
  (length es < fuel)%nat ->
  exists r s',
    table_lookup fuel t key s = Done r s' /\
    r = match find (matches cmp key) es with
        | Some e => e.2
        | None => NULL
        end.
Proof.
  intros Htab Hfuel.
  destruct (first_match_split cmp key es)
    as [[Hfind Hnone] | (skipped & e & rest & -> & Hskip & Hm & Hfind)];
    rewrite Hfind.
  - exists NULL, (log (compare_events key es) s).
    split; [apply (table_lookup_miss t cmp kf vf); assumption | reflexivity].
  - destruct skipped as [|e0 skipped].
    + assert (Hfuel0 : (0 < fuel)%nat) by (clear - Hfuel; cbn in Hfuel; lia).
      destruct (table_lookup_front t cmp kf vf s e rest key fuel Htab Hm Hfuel0)
        as (s' & Hrun & _).
      exists e.2, s'. split; [exact Hrun | reflexivity].
    + assert (Hfuel1 : (length (e0 :: skipped) < fuel)%nat).
      { clear - Hfuel. rewrite length_app in Hfuel. lia. }
      destruct (table_lookup_promote t cmp kf vf s (e0 :: skipped) e rest key fuel
                  Htab ltac:(discriminate) Hskip Hm Hfuel1) as (s' & Hrun & _).
      exists e.2, s'. split; [exact Hrun | reflexivity].
Qed.

Lemma lookup_returns_stored_value_or_NULL_witness :
  exists r s',
    table_lookup 4 Scenario.tA 2 Scenario.sA = Done r s' /\
    r = match find (matches Scenario.numcmp 2) [(3, 99); (2, 98); (1, 97)] with
        | Some e => e.2
        | None => NULL
        end.
Proof.
  apply (lookup_returns_stored_value_or_NULL Scenario.sA Scenario.tA Scenario.numcmp
           FNull FNull [(3, 99); (2, 98); (1, 97)] 2 4%nat).
  - exact ScenarioFacts.sA_table.
  - cbn. lia.
Defined.

(** C8, as stated, fails: in the table holding (2,"b") and (1,NULL), key 1 is
    present, its lookup succeeds, and the result is the same as that of the
    lookup of the absent key 9. *)
Lemma lookup_of_NULL_value_looks_like_miss :
  contents 8 Scenario.tA Scenario.sN = Some [(2, 98); (1, NULL)] /\
  Scenario.result_of (table_lookup 8 Scenario.tA 1 Scenario.sN) = Some NULL /\
  Scenario.result_of (table_lookup 8 Scenario.tA 9 Scenario.sN) = Some NULL /\
  ~ (forall s t cmp kf vf es key_present key_absent fuel r_hit r_miss s1 s2,
        table_is s t cmp kf vf es ->
        Exists (fun e => matches cmp key_present e = true) es ->
        Forall (fun e => matches cmp key_absent e = false) es ->
        table_lookup fuel t key_present s = Done r_hit s1 ->
        table_lookup fuel t key_absent s = Done r_miss s2 ->
        r_hit <> r_miss).
Proof.
  split; [vm_compute; reflexivity|]. split; [vm_compute; reflexivity|].
  split; [vm_compute; reflexivity|].
  intros Hclaim.
  apply (Hclaim Scenario.sN Scenario.tA Scenario.numcmp FNull FNull
           [(2, 98); (1, NULL)] 1 9 8%nat NULL NULL
           (Scenario.state_of (table_lookup 8 Scenario.tA 1 Scenario.sN))
           (Scenario.state_of (table_lookup 8 Scenario.tA 9 Scenario.sN))).
  - exact ScenarioFacts.sN_table.
  - apply Exists_cons_tl. apply Exists_cons_hd. reflexivity.
  - repeat constructor.
  - vm_compute. reflexivity.
  - vm_compute. reflexivity.
  - reflexivity.
Qed.

(** C9.  [table_isEmpty] returns true exactly when the table holds no
    entries, and changes nothing. *)
Theorem isEmpty_iff_no_entries s t cmp kf vf es :
  table_is s t cmp kf vf es ->
  exists b, table_isEmpty t s = Done b s /\ (b = true <-> es = []).
Proof.
  intros Htab. eexists. split; [eapply table_isEmpty_entries; exact Htab|].
  destruct es; split; intros E; first [reflexivity | discriminate E].
Qed.

Lemma isEmpty_iff_no_entries_witness :
  exists b, table_isEmpty Scenario.tA Scenario.sA = Done b Scenario.sA /\
            (b = true <-> [(3, 99); (2, 98); (1, 97)] = []).
Proof.
  apply (isEmpty_iff_no_entries Scenario.sA Scenario.tA Scenario.numcmp FNull FNull
           [(3, 99); (2, 98); (1, 97)]).
  exact ScenarioFacts.sA_table.
Defined.

(** C10.  Given memory for its three objects, [table_create] returns a
    non-NULL table with the given comparator, both destructors NULL and no
    entries.  On any table whose destructors are still NULL, with whatever
    entries, [table_remove] and [table_free] make no key or value destructor
    call. *)
Theorem created_table_has_no_destructors s cmp :
  heap_ok s ->
  (3 <= quota s)%nat ->
  exists t s',
    table_create cmp s = Done t s' /\
    t <> NULL /\
    table_is s' t cmp FNull FNull [] /\
    table_isEmpty t s' = Done true s' /\
    forall s1 es fuel,
      table_is s1 t cmp FNull FNull es ->
      (length es < fuel)%nat ->
      (forall key, exists s2 evs,
         table_remove fuel t key s1 = Done tt s2 /\
         table_is s2 t cmp FNull FNull (filter (survives cmp key) es) /\
         trace s2 = trace s1 ++ evs /\
         Forall (fun ev => is_destructor_call ev = false) evs) /\
      (exists s2, table_free fuel t s1 = Done tt s2 /\ trace s2 = trace s1).
Proof.
  intros Hok Hq.
  destruct (table_create_empty s cmp Hok Hq) as (s' & Hrun & Hnn & Htab & _).
  exists (brk s), s'. split; [exact Hrun|]. split; [exact Hnn|]. split; [exact Htab|].
  split; [exact (table_isEmpty_entries _ _ _ _ _ _ Htab)|].
  intros s1 es fuel Htab1 Hfuel. split.
  - intros key.
    destruct (table_remove_all _ _ _ _ s1 es key fuel Htab1 Hfuel)
      as (s2 & Hrun2 & Htab2 & Htr & _).
    exists s2, (flat_map (remove_events cmp FNull FNull key) es).
    split; [exact Hrun2|]. split; [exact Htab2|]. split; [exact Htr|].
    apply remove_events_no_destructors.
  - destruct (table_free_all _ _ _ _ s1 es fuel Htab1 Hfuel)
      as (s2 & Hrun2 & _ & Htr & _).
    exists s2. split; [exact Hrun2|].
    rewrite Htr, destroy_events_unregistered, app_nil_r. reflexivity.
Qed.

Lemma created_table_has_no_destructors_witness :
  exists t s',
    table_create Scenario.numcmp Scenario.boot = Done t s' /\
    t <> NULL /\
    table_is s' t Scenario.numcmp FNull FNull [] /\
    table_isEmpty t s' = Done true s' /\
    forall s1 es fuel,
      table_is s1 t Scenario.numcmp FNull FNull es ->
      (length es < fuel)%nat ->
      (forall key, exists s2 evs,
         table_remove fuel t key s1 = Done tt s2 /\
         table_is s2 t Scenario.numcmp FNull FNull (filter (survives Scenario.numcmp key) es) /\
         trace s2 = trace s1 ++ evs /\
         Forall (fun ev => is_destructor_call ev = false) evs) /\
      (exists s2, table_free fuel t s1 = Done tt s2 /\ trace s2 = trace s1).
Proof.
  apply (created_table_has_no_destructors Scenario.boot Scenario.numcmp).
  - exact ScenarioFacts.boot_ok.
  - vm_compute. lia.
Defined.

(** * Further properties of the code *)

(** ** Registering destructors *)

Section Handlers.
Variables (t : ptr) (cmp : CompareFunction) (kf vf : funptr).

Lemma table_rep_set_fields s l hd jd first cs kf' vf' :
  table_rep s t cmp kf vf l hd jd first cs ->
  table_rep (set_heap (<[t := CTable l (Some cmp) kf' vf']> (heap s)) s)
    t cmp kf' vf' l hd jd first cs.
Proof.
  intros [].
  assert (Htl : t <> l) by (intros ->; congruence).
  assert (Hth : t <> hd) by (intros ->; congruence).
  constructor; cbn [heap brk quota trace set_heap]; try assumption.
  - destruct rep_heap_ok0 as [Hb Hall]. split; [exact Hb|].
    cbn [heap brk set_heap]. apply map_Forall_insert_2; [|exact Hall].
    exact (Hall _ _ rep_table0).
  - apply lookup_insert_eq.
  - rewrite lookup_insert_ne by congruence. assumption.
  - rewrite lookup_insert_ne by congruence. assumption.
  - eapply chain_ext; [|exact rep_chain0]. intros a [Ha|Ha].
    + destruct (chain_addr_is_node _ _ _ _ _ rep_chain0 Ha) as (? & ? & ?).
      rewrite lookup_insert_ne; [reflexivity|]. intros ->. congruence.
    + destruct (chain_data_is_elem _ _ _ _ _ rep_chain0 Ha) as (? & ? & ?).
      rewrite lookup_insert_ne; [reflexivity|]. intros ->. congruence.
Qed.

Lemma table_setKeyMemHandler_entries s es f :
  table_is s t cmp kf vf es ->
  exists s',
    table_setKeyMemHandler t f s = Done tt s' /\
    table_is s' t cmp f vf es /\
    trace s' = trace s /\ brk s' = brk s /\ quota s' = quota s /\
    (forall a, a <> t -> heap s' !! a = heap s !! a).
Proof.
  intros (l & hd & jd & first & cs & Hrep & ->).
  exists (set_heap (<[t := CTable l (Some cmp) f vf]> (heap s)) s).
  split.
  { destruct Hrep. unfold table_setKeyMemHandler. eapply set_keyFree_run; eassumption. }
  split.
  { exists l, hd, jd, first, cs. split; [|reflexivity].
    apply table_rep_set_fields. exact Hrep. }
  repeat (split; [reflexivity|]).
  intros a Ha. cbn [heap set_heap]. apply lookup_insert_ne. congruence.
Qed.

Lemma table_setValueMemHandler_entries s es f :
  table_is s t cmp kf vf es ->
  exists s',
    table_setValueMemHandler t f s = Done tt s' /\
    table_is s' t cmp kf f es /\
    trace s' = trace s /\ brk s' = brk s /\ quota s' = quota s /\
    (forall a, a <> t -> heap s' !! a = heap s !! a).
Proof.
  intros (l & hd & jd & first & cs & Hrep & ->).
  exists (set_heap (<[t := CTable l (Some cmp) kf f]> (heap s)) s).
  split.
  { destruct Hrep. unfold table_setValueMemHandler. eapply set_valueFree_run; eassumption. }
  split.
  { exists l, hd, jd, first, cs. split; [|reflexivity].
    apply table_rep_set_fields. exact Hrep. }
  repeat (split; [reflexivity|]).
  intros a Ha. cbn [heap set_heap]. apply lookup_insert_ne. congruence.
Qed.

End Handlers.

(** ** Creating and destroying *)

Lemma table_create_frame s cmp :
  heap_ok s -> (3 <= quota s)%nat ->
  exists s',
    table_create cmp s = Done (brk s) s' /\
    table_rep s' (brk s) cmp FNull FNull (brk s + 1) (brk s + 1 + 1) NULL NULL [] /\
    trace s' = trace s /\ (quota s' + 3 = quota s)%nat /\
    (forall a, a <> brk s -> a <> brk s + 1 -> a <> brk s + 1 + 1 ->
               heap s' !! a = heap s !! a).
Proof.
  intros Hok Hq. pose proof Hok as [Hb Hall].
  destruct (quota s) as [|[|[|q]]] eqn:Eq; try (clear - Hq; lia). clear Hq.
  assert (Hb0 : brk s <> NULL) by (unfold NULL; clear - Hb; lia).
  assert (Hb1 : brk s + 1 <> NULL) by (unfold NULL; clear - Hb; lia).
  assert (Hb2 : brk s + 1 + 1 <> NULL) by (unfold NULL; clear - Hb; lia).
  assert (Hb01 : brk s <> brk s + 1) by (clear; lia).
  assert (Hb02 : brk s <> brk s + 1 + 1) by (clear; lia).
  assert (Hb12 : brk s + 1 <> brk s + 1 + 1) by (clear; lia).
  eexists. split.
  { unfold table_create, dlist_empty, dlist_setMemHandler.
    step_malloc. rewrite eqb_NULL_false by assumption.
    step_malloc. step_malloc. repeat step. reflexivity. }
  cbn [heap brk quota trace set_heap log].
  split; [|split; [reflexivity | split; [clear; lia|]]].
  - constructor; cbn [heap brk quota trace set_heap log chain fmap list_fmap];
      try assumption; try reflexivity; try side_lookup.
    + unfold heap_ok. cbn [heap brk quota trace set_heap log].
      split; [clear - Hb; lia|].
      assert (Hall' : map_Forall (fun (a : Z) (_ : cell) => 0 < a < brk s + 1 + 1 + 1) (heap s)).
      { intros a c Ha. pose proof (Hall a c Ha) as Hx. cbn beta in Hx |- *.
        clear - Hx. lia. }
      repeat apply map_Forall_insert_2; try assumption; clear - Hb; lia.
    + apply NoDup_singleton.
    + apply NoDup_nil_2.
  - intros a Ha0 Ha1 Ha2. rewrite !lookup_insert_ne by congruence. reflexivity.
Qed.

Lemma table_free_empty_run s t cmp kf vf l hd jd fuel :
  table_rep s t cmp kf vf l hd jd NULL [] ->
  (0 < fuel)%nat ->
  table_free fuel t s =
  Done tt {| heap := delete t (delete l (delete hd (heap s)));
             brk := brk s; quota := S (S (S (quota s))); trace := trace s |}.
Proof.
  intros [] Hfuel. destruct fuel as [|fuel]; [clear - Hfuel; lia|].
  assert (Htl : t <> l) by (intros ->; congruence).
  assert (Hth : t <> hd) by (intros ->; congruence).
  assert (Hlh : l <> hd) by (intros ->; congruence).
  unfold table_free, dlist_first. repeat step.
  erewrite bind_done by (eapply free_loop_end; eauto).
  unfold dlist_free, dlist_first. repeat step.
  cbn [dlist_free_loop]. unfold dlist_isEnd. repeat step.
  rewrite Z.eqb_refl. repeat step. last_step.
Qed.

(** ** Facts about the list program *)

Lemma first_match_None cmp key es :
  first_match cmp key es = None ->
  Forall (fun e => matches cmp key e = false) es.
Proof.
  induction es as [|e es IH]; cbn [first_match]; [constructor|].
  destruct (matches cmp key e) eqn:Hm; [discriminate|].
  destruct (first_match cmp key es) as [[[sk m] r]|]; [discriminate|].
  intros _. constructor; [exact Hm | apply IH; reflexivity].
Qed.

Lemma first_match_Some cmp key es skipped m rest :
  first_match cmp key es = Some (skipped, m, rest) ->
  es = skipped ++ m :: rest /\
  Forall (fun e => matches cmp key e = false) skipped /\
  matches cmp key m = true.
Proof.
  revert skipped. induction es as [|e es IH]; intros skipped; cbn [first_match];
    [discriminate|].
  destruct (matches cmp key e) eqn:Hm.
  - intros [= <- <- <-]. repeat split; [constructor | exact Hm].
  - destruct (first_match cmp key es) as [[[sk m'] r]|]; [|discriminate].
    intros [= <- <- <-]. destruct (IH sk eq_refl) as (-> & Hall & Hm').
    repeat split; [constructor; assumption | exact Hm'].
Qed.

Lemma filter_survives_all cmp key (es : list (KEY * VALUE)) :
  Forall (fun e => matches cmp key e = false) es ->
  filter (survives cmp key) es = es.
Proof.
  induction 1 as [|e es He _ IH]; [reflexivity|].
  rewrite filter_cons_True by exact He. rewrite IH. reflexivity.
Qed.

Lemma filter_matches_none cmp key (es : list (KEY * VALUE)) :
  Forall (fun e => matches cmp key e = false) es ->
  filter (fun e => matches cmp key e = true) es = [].
Proof.
  induction 1 as [|e es He _ IH]; [reflexivity|].
  rewrite filter_cons_False; [exact IH|]. rewrite He. discriminate.
Qed.

Lemma filter_survives_no_match cmp key (es : list (KEY * VALUE)) :
  Forall (fun e => matches cmp key e = false) (filter (survives cmp key) es).
Proof.
  apply Forall_forall. intros e He. apply list_elem_of_filter in He as [He _]. exact He.
Qed.

Lemma take_through_match {A} (skipped : list A) m rest :
  take (S (length skipped)) (skipped ++ m :: rest) = skipped ++ [m].
Proof.
  induction skipped as [|x skipped IH]; [reflexivity|].
  cbn [length app take]. cbn [take] in IH. rewrite IH. reflexivity.
Qed.

Lemma length_list_lookup cmp key es :
  (length (list_lookup cmp key es).2 <= length es)%nat.
Proof.
  unfold list_lookup. destruct (first_match cmp key es) as [[[sk m] r]|] eqn:E;
    [|cbn; lia].
  apply first_match_Some in E as (-> & _ & _).
  destruct sk; cbn [snd length app]; rewrite ?length_app; cbn [length]; lia.
Qed.

(** [table_lookup] computes [list_lookup]. *)
Lemma table_lookup_list t cmp kf vf s es key fuel :
  table_is s t cmp kf vf es ->
  (length es < fuel)%nat ->
  exists s' n,
    table_lookup fuel t key s = Done (list_lookup cmp key es).1 s' /\
    table_is s' t cmp kf vf (list_lookup cmp key es).2 /\
    trace s' = trace s ++ compare_events key (take n es) /\
    brk s' = brk s /\ quota s' = quota s.
Proof.
  intros Htab Hfuel. unfold list_lookup.
  destruct (first_match cmp key es) as [[[sk m] r]|] eqn:E.
  - apply first_match_Some in E as (-> & Hskip & Hm).
    destruct sk as [|e0 sk].
    + assert (Hfuel0 : (0 < fuel)%nat) by (clear - Hfuel; cbn in Hfuel; lia).
      destruct (table_lookup_front t cmp kf vf s m r key fuel Htab Hm Hfuel0)
        as (s' & Hrun & Htab' & Htr & Hbrk & Hq).
      exists s', 1%nat. cbn [fst snd app take]. auto.
    + assert (Hfuel1 : (length (e0 :: sk) < fuel)%nat).
      { clear - Hfuel. rewrite length_app in Hfuel. lia. }
      destruct (table_lookup_promote t cmp kf vf s (e0 :: sk) m r key fuel
                  Htab ltac:(discriminate) Hskip Hm Hfuel1)
        as (s' & Hrun & Htab' & Htr & Hbrk & Hq).
      exists s', (S (length (e0 :: sk))). cbn [fst snd].
      rewrite take_through_match. auto.
  - apply first_match_None in E.
    exists (log (compare_events key es) s), (length es). cbn [fst snd].
    split; [apply (table_lookup_miss t cmp kf vf); assumption|].
    split; [apply table_is_log; exact Htab|].
    rewrite firstn_all. auto.
Qed.

(** ** Sequences of calls *)

Lemma run_calls_list t cmp calls : forall s kf vf es fuel,
  table_is s t cmp kf vf es ->
  (2 * inserts calls <= quota s)%nat ->
  (length es + inserts calls < fuel)%nat ->
  exists s',
    run_calls fuel t calls s = Done (list_calls cmp calls (LTable kf vf es)).1 s' /\
    table_is s' t cmp
      (l_keyFree (list_calls cmp calls (LTable kf vf es)).2)
      (l_valueFree (list_calls cmp calls (LTable kf vf es)).2)
      (l_entries (list_calls cmp calls (LTable kf vf es)).2).
Proof.
  induction calls as [|c calls IH]; intros s kf vf es fuel Htab Hq Hfuel.
  - exists s. split; [reflexivity | exact Htab].
  - cbn [run_calls list_calls fst snd].
    destruct c as [k v|k|k| |f|f]; cbn [run_call list_call fst snd inserts] in *;
      cbn [l_keyFree l_valueFree l_entries].
    + (* insert *)
      destruct (table_insert_front t cmp kf vf s es k v Htab ltac:(clear - Hq; lia))
        as (s1 & Hrun & Htab1 & _ & _ & Hq1).
      destruct (IH s1 kf vf ((k, v) :: es) fuel Htab1
                  ltac:(clear - Hq Hq1; lia) ltac:(clear - Hfuel; cbn [length]; lia))
        as (s' & Hrun' & Htab').
      exists s'. split; [|exact Htab'].
      rewrite bind_assoc. erewrite bind_done by exact Hrun.
      rewrite bind_ret. erewrite bind_done by exact Hrun'. reflexivity.
    + (* lookup *)
      destruct (table_lookup_list t cmp kf vf s es k fuel Htab ltac:(clear - Hfuel; lia))
        as (s1 & n & Hrun & Htab1 & _ & _ & Hq1).
      pose proof (length_list_lookup cmp k es) as Hlen.
      destruct (IH s1 kf vf (list_lookup cmp k es).2 fuel Htab1
                  ltac:(clear - Hq Hq1; lia) ltac:(clear - Hfuel Hlen; lia))
        as (s' & Hrun' & Htab').
      exists s'. split; [|exact Htab'].
      rewrite bind_assoc. erewrite bind_done by exact Hrun.
      rewrite bind_ret. erewrite bind_done by exact Hrun'. reflexivity.
    + (* remove *)
      destruct (table_remove_all t cmp kf vf s es k fuel Htab ltac:(clear - Hfuel; lia))
        as (s1 & Hrun & Htab1 & _ & _ & Hq1).
      pose proof (length_filter (survives cmp k) es) as Hlen.
      destruct (IH s1 kf vf (filter (survives cmp k) es) fuel Htab1
                  ltac:(clear - Hq Hq1; lia) ltac:(clear - Hfuel Hlen; lia))
        as (s' & Hrun' & Htab').
      exists s'. split; [|exact Htab'].
      rewrite bind_assoc. erewrite bind_done by exact Hrun.
      rewrite bind_ret. erewrite bind_done by exact Hrun'. reflexivity.
    + (* isEmpty *)
      pose proof (table_isEmpty_entries t cmp kf vf s es Htab) as Hrun.
      destruct (IH s kf vf es fuel Htab Hq Hfuel) as (s' & Hrun' & Htab').
      exists s'. split; [|exact Htab'].
      rewrite bind_assoc. erewrite bind_done by exact Hrun.
      rewrite bind_ret. erewrite bind_done by exact Hrun'. reflexivity.
    + (* setKeyMemHandler *)
      destruct (table_setKeyMemHandler_entries t cmp kf vf s es f Htab)
        as (s1 & Hrun & Htab1 & _ & _ & Hq1 & _).
      destruct (IH s1 f vf es fuel Htab1 ltac:(clear - Hq Hq1; lia) Hfuel)
        as (s' & Hrun' & Htab').
      exists s'. split; [|exact Htab'].
      rewrite bind_assoc. erewrite bind_done by exact Hrun.
      rewrite bind_ret. erewrite bind_done by exact Hrun'. reflexivity.
    + (* setValueMemHandler *)
      destruct (table_setValueMemHandler_entries t cmp kf vf s es f Htab)
        as (s1 & Hrun & Htab1 & _ & _ & Hq1 & _).
      destruct (IH s1 kf f es fuel Htab1 ltac:(clear - Hq Hq1; lia) Hfuel)
        as (s' & Hrun' & Htab').
      exists s'. split; [|exact Htab'].
      rewrite bind_assoc. erewrite bind_done by exact Hrun.
      rewrite bind_ret. erewrite bind_done by exact Hrun'. reflexivity.
Qed.

(** * Properties beyond the claims *)

(** X1.  A lookup whose front-most match lies behind at least one other
    entry returns the stored value and moves that entry, and only it, to the
    front; the entries before and after it keep their order.  The comparator
    is called once for each entry up to and including the match, and memory
    is neither allocated nor released. *)
Theorem lookup_moves_match_to_front s t cmp kf vf skipped e rest key fuel :
  table_is s t cmp kf vf (skipped ++ e :: rest) ->
  skipped <> [] ->
  Forall (fun e' => matches cmp key e' = false) skipped ->
  matches cmp key e = true ->
  (length skipped < fuel)%nat ->
  exists s',
    table_lookup fuel t key s = Done e.2 s' /\
    table_is s' t cmp kf vf (e :: skipped ++ rest) /\
    trace s' = trace s ++ compare_events key (skipped ++ [e]) /\
    brk s' = brk s /\ quota s' = quota s.
Proof.
  intros Htab Hne Hskip Hm Hfuel.
  exact (table_lookup_promote t cmp kf vf s skipped e rest key fuel Htab Hne Hskip Hm Hfuel).
Qed.

Lemma lookup_moves_match_to_front_witness :
  exists s',
    table_lookup 3 Scenario.tA 2 Scenario.sA = Done 98 s' /\
    table_is s' Scenario.tA Scenario.numcmp FNull FNull ((2, 98) :: [(3, 99)] ++ [(1, 97)]) /\
    trace s' = trace Scenario.sA ++ compare_events 2 ([(3, 99)] ++ [(2, 98)]) /\
    brk s' = brk Scenario.sA /\ quota s' = quota Scenario.sA.
Proof.
  apply (lookup_moves_match_to_front Scenario.sA Scenario.tA Scenario.numcmp
           FNull FNull [(3, 99)] (2, 98) [(1, 97)] 2 3%nat).
  - exact ScenarioFacts.sA_table.
  - discriminate.
  - repeat constructor.
  - reflexivity.
  - cbn. lia.
Defined.

(** X2.  [table_setKeyMemHandler] replaces the key destructor and nothing
    else: the entries, the comparator and the value destructor stay, every
    other object in memory is untouched, and no callback is invoked (so
    entries already in the table are not affected until they are removed). *)
Theorem setKeyMemHandler_replaces_key_destructor s t cmp kf vf es f :
  table_is s t cmp kf vf es ->
  exists s',
    table_setKeyMemHandler t f s = Done tt s' /\
    table_is s' t cmp f vf es /\
    trace s' = trace s /\ quota s' = quota s /\
    (forall a, a <> t -> heap s' !! a = heap s !! a).
Proof.
  intros Htab.
  destruct (table_setKeyMemHandler_entries t cmp kf vf s es f Htab)
    as (s' & Hrun & Htab' & Htr & _ & Hq & Hframe).
  exists s'. auto.
Qed.

Lemma setKeyMemHandler_replaces_key_destructor_witness :
  exists s',
    table_setKeyMemHandler Scenario.tA FLibcFree Scenario.sA = Done tt s' /\
    table_is s' Scenario.tA Scenario.numcmp FLibcFree FNull [(3, 99); (2, 98); (1, 97)] /\
    trace s' = trace Scenario.sA /\ quota s' = quota Scenario.sA /\
    (forall a, a <> Scenario.tA -> heap s' !! a = heap Scenario.sA !! a).
Proof.
  apply (setKeyMemHandler_replaces_key_destructor Scenario.sA Scenario.tA Scenario.numcmp
           FNull FNull [(3, 99); (2, 98); (1, 97)] FLibcFree).
  exact ScenarioFacts.sA_table.
Defined.

(** X3.  [table_setValueMemHandler] replaces the value destructor and
    nothing else. *)
Theorem setValueMemHandler_replaces_value_destructor s t cmp kf vf es f :
  table_is s t cmp kf vf es ->
  exists s',
    table_setValueMemHandler t f s = Done tt s' /\
    table_is s' t cmp kf f es /\
    trace s' = trace s /\ quota s' = quota s /\
    (forall a, a <> t -> heap s' !! a = heap s !! a).
Proof.
  intros Htab.
  destruct (table_setValueMemHandler_entries t cmp kf vf s es f Htab)
    as (s' & Hrun & Htab' & Htr & _ & Hq & Hframe).
  exists s'. auto.
Qed.

Lemma setValueMemHandler_replaces_value_destructor_witness :
  exists s',
    table_setValueMemHandler Scenario.tA FLibcFree Scenario.sA = Done tt s' /\
    table_is s' Scenario.tA Scenario.numcmp FNull FLibcFree [(3, 99); (2, 98); (1, 97)] /\
    trace s' = trace Scenario.sA /\ quota s' = quota Scenario.sA /\
    (forall a, a <> Scenario.tA -> heap s' !! a = heap Scenario.sA !! a).
Proof.
  apply (setValueMemHandler_replaces_value_destructor Scenario.sA Scenario.tA
           Scenario.numcmp FNull FNull [(3, 99); (2, 98); (1, 97)] FLibcFree).
  exact ScenarioFacts.sA_table.
Defined.

(** X4.  [table_free] visits the entries front to back and calls, for each,
    the key destructor on its key and then the value destructor on its value
    (each only if registered), and makes no other external call; afterwards
    the table object is no longer allocated, and two objects per entry plus
    the three of the empty table have been given back to the allocator. *)
Theorem free_destroys_every_entry s t cmp kf vf es fuel :
  table_is s t cmp kf vf es ->
  (length es < fuel)%nat ->
  exists s',
    table_free fuel t s = Done tt s' /\
    heap s' !! t = None /\
    trace s' = trace s ++ flat_map (destroy_events kf vf) es /\
    quota s' = (quota s + 2 * length es + 3)%nat.
Proof.
  intros Htab Hfuel.
  exact (table_free_all t cmp kf vf s es fuel Htab Hfuel).
Qed.

Lemma free_destroys_every_entry_witness :
  exists s',
    table_free 2 Scenario.tA Scenario.sD = Done tt s' /\
    heap s' !! Scenario.tA = None /\
    trace s' = trace Scenario.sD ++
      flat_map (destroy_events Scenario.key_destructor Scenario.value_destructor)
        [(1, 97)] /\
    quota s' = (quota Scenario.sD + 2 * length [(1, 97)%Z] + 3)%nat.
Proof.
  apply (free_destroys_every_entry Scenario.sD Scenario.tA Scenario.numcmp
           Scenario.key_destructor Scenario.value_destructor [(1, 97)] 2%nat).
  - exact ScenarioFacts.sD_table.
  - cbn. lia.
Defined.

(** X5.  When the allocator has nothing left, [table_create] returns NULL
    and leaves the state as it was: nothing is allocated, nothing is
    called. *)
Theorem create_without_memory_returns_NULL cmp s :
  quota s = 0%nat ->
  table_create cmp s = Done NULL s.
Proof.
  intros Hq. unfold table_create, bind, malloc. rewrite Hq. reflexivity.
Qed.

Lemma create_without_memory_returns_NULL_witness :
  table_create Scenario.numcmp Scenario.starved = Done NULL Scenario.starved.
Proof.
  apply (create_without_memory_returns_NULL Scenario.numcmp Scenario.starved).
  reflexivity.
Defined.

(** X6.  Inserting a pair whose key matches no entry of the table and then
    removing that key gives back the table as it was: the same entries in the
    same order, and the two objects taken by the insertion are released
    again.  The comparator has to find the key equal to itself. *)
Theorem insert_then_remove_restores_entries s t cmp kf vf es k v fuel :
  table_is s t cmp kf vf es ->
  Forall (fun e => matches cmp k e = false) es ->
  cmp k k = 0 ->
  (2 <= quota s)%nat ->
  (S (length es) < fuel)%nat ->
  exists s1 s2,
    table_insert t k v s = Done tt s1 /\
    table_remove fuel t k s1 = Done tt s2 /\
    table_is s2 t cmp kf vf es /\
    quota s2 = quota s.
Proof.
  intros Htab Hnone Hrefl Hq Hfuel.
  destruct (table_insert_front t cmp kf vf s es k v Htab Hq)
    as (s1 & Hrun1 & Htab1 & _ & _ & Hq1).
  destruct (table_remove_all t cmp kf vf s1 ((k, v) :: es) k fuel Htab1 Hfuel)
    as (s2 & Hrun2 & Htab2 & _ & _ & Hq2).
  assert (Hm : matches cmp k (k, v) = true).
  { unfold matches. cbn [fst]. rewrite Hrefl. reflexivity. }
  exists s1, s2. split; [exact Hrun1|]. split; [exact Hrun2|]. split.
  - rewrite filter_cons_False in Htab2 by (unfold survives; rewrite Hm; discriminate).
    rewrite filter_survives_all in Htab2 by exact Hnone. exact Htab2.
  - rewrite Hq2. rewrite filter_cons_True by exact Hm.
    rewrite filter_matches_none by exact Hnone. cbn [length]. clear - Hq1. lia.
Qed.

Lemma insert_then_remove_restores_entries_witness :
  exists s1 s2,
    table_insert Scenario.tA 7 100 Scenario.sA = Done tt s1 /\
    table_remove 5 Scenario.tA 7 s1 = Done tt s2 /\
    table_is s2 Scenario.tA Scenario.numcmp FNull FNull [(3, 99); (2, 98); (1, 97)] /\
    quota s2 = quota Scenario.sA.
Proof.
  apply (insert_then_remove_restores_entries Scenario.sA Scenario.tA Scenario.numcmp
           FNull FNull [(3, 99); (2, 98); (1, 97)] 7 100 5%nat).
  - exact ScenarioFacts.sA_table.
  - repeat constructor.
  - reflexivity.
  - vm_compute. lia.
  - cbn. lia.
Defined.

(** X7.  After [table_remove] of a key, a lookup of that key finds nothing:
    it returns NULL. *)
Theorem remove_then_lookup_misses s t cmp kf vf es key fuel :
  table_is s t cmp kf vf es ->
  (length es < fuel)%nat ->
  exists s1 s2,
    table_remove fuel t key s = Done tt s1 /\
    table_lookup fuel t key s1 = Done NULL s2 /\
    table_is s2 t cmp kf vf (filter (survives cmp key) es).
Proof.
  intros Htab Hfuel.
  destruct (table_remove_all t cmp kf vf s es key fuel Htab Hfuel)
    as (s1 & Hrun1 & Htab1 & _).
  pose proof (length_filter (survives cmp key) es) as Hlen.
  exists s1, (log (compare_events key (filter (survives cmp key) es)) s1).
  split; [exact Hrun1|]. split.
  - apply (table_lookup_miss t cmp kf vf); [exact Htab1 | apply filter_survives_no_match|].
    clear - Hfuel Hlen. lia.
  - apply table_is_log. exact Htab1.
Qed.

Lemma remove_then_lookup_misses_witness :
  exists s1 s2,
    table_remove 4 Scenario.tA 2 Scenario.sA = Done tt s1 /\
    table_lookup 4 Scenario.tA 2 s1 = Done NULL s2 /\
    table_is s2 Scenario.tA Scenario.numcmp FNull FNull
      (filter (survives Scenario.numcmp 2) [(3, 99); (2, 98); (1, 97)]).
Proof.
  apply (remove_then_lookup_misses Scenario.sA Scenario.tA Scenario.numcmp
           FNull FNull [(3, 99); (2, 98); (1, 97)] 2 4%nat).
  - exact ScenarioFacts.sA_table.
  - cbn. lia.
Defined.

Lemma heap_ok_beyond s a : heap_ok s -> brk s <= a -> heap s !! a = None.
Proof.
  intros [_ Hall] Ha. destruct (heap s !! a) as [c|] eqn:E; [|reflexivity].
  pose proof (Hall a c E) as Hx. cbn beta in Hx. clear - Hx Ha. lia.
Qed.

Lemma list_lookup_subset cmp key es e :
  e ∈ (list_lookup cmp key es).2 -> e ∈ es.
Proof.
  unfold list_lookup. destruct (first_match cmp key es) as [[[sk m] r]|] eqn:E;
    [|cbn; auto].
  apply first_match_Some in E as (-> & _ & _).
  destruct sk as [|e0 sk]; cbn [snd]; intros Hin.
  - apply elem_of_cons. right. exact Hin.
  - rewrite <- (Permutation_middle (e0 :: sk) r m). exact Hin.
Qed.

(** X8.  Whatever the key, [table_lookup] on a well-formed table returns
    without a fault, leaves a well-formed table whose entries all were there
    before, allocates and releases nothing, and makes no external call except
    comparator calls [cf(entry key, key)] on an initial run of the entries,
    front to back; in particular it never calls a destructor. *)
Theorem lookup_only_compares s t cmp kf vf es key fuel :
  table_is s t cmp kf vf es ->
  (length es < fuel)%nat ->
  exists r s' es' n,
    table_lookup fuel t key s = Done r s' /\
    table_is s' t cmp kf vf es' /\
    (forall e, e ∈ es' -> e ∈ es) /\
    (length es' <= length es)%nat /\
    trace s' = trace s ++ compare_events key (take n es) /\
    brk s' = brk s /\ quota s' = quota s.
Proof.
  intros Htab Hfuel.
  destruct (table_lookup_list t cmp kf vf s es key fuel Htab Hfuel)
    as (s' & n & Hrun & Htab' & Htr & Hbrk & Hq).
  exists (list_lookup cmp key es).1, s', (list_lookup cmp key es).2, n.
  split; [exact Hrun|]. split; [exact Htab'|].
  split; [intros e; apply list_lookup_subset|].
  split; [apply length_list_lookup|]. auto.
Qed.

Lemma lookup_only_compares_witness :
  exists r s' es' n,
    table_lookup 4 Scenario.tA 2 Scenario.sA = Done r s' /\
    table_is s' Scenario.tA Scenario.numcmp FNull FNull es' /\
    (forall e, e ∈ es' -> e ∈ [(3, 99); (2, 98); (1, 97)]) /\
    (length es' <= length [(3, 99); (2, 98); (1, 97)]%Z)%nat /\
    trace s' = trace Scenario.sA ++ compare_events 2 (take n [(3, 99); (2, 98); (1, 97)]) /\
    brk s' = brk Scenario.sA /\ quota s' = quota Scenario.sA.
Proof.
  apply (lookup_only_compares Scenario.sA Scenario.tA Scenario.numcmp
           FNull FNull [(3, 99); (2, 98); (1, 97)] 2 4%nat).
  - exact ScenarioFacts.sA_table.
  - cbn. lia.
Defined.

(** X9.  Register a key destructor and a value destructor, insert one pair
    whose key matches no entry, remove that key: between them the four calls
    invoke the key destructor exactly once, on the inserted key, and the value
    destructor exactly once, on the inserted value, and no other destructor
    call is made; the table holds its former entries again. *)
Theorem registered_destructors_called_once s t cmp kf vf es f g k v fuel :
  table_is s t cmp kf vf es ->
  f <> FNull -> g <> FNull ->
  Forall (fun e => matches cmp k e = false) es ->
  cmp k k = 0 ->
  (2 <= quota s)%nat ->
  (S (length es) < fuel)%nat ->
  exists s1 s2 s3 s4 evs,
    table_setKeyMemHandler t f s = Done tt s1 /\
    table_setValueMemHandler t g s1 = Done tt s2 /\
    table_insert t k v s2 = Done tt s3 /\
    table_remove fuel t k s3 = Done tt s4 /\
    table_is s4 t cmp f g es /\
    trace s4 = trace s ++ evs /\
    filter (fun ev => is_destructor_call ev = true) evs = [EvKeyFree f k; EvValueFree g v].
Proof.
  intros Htab Hf Hg Hnone Hrefl Hq Hfuel.
  destruct (table_setKeyMemHandler_entries t cmp kf vf s es f Htab)
    as (s1 & Hrun1 & Htab1 & Htr1 & _ & Hq1 & _).
  destruct (table_setValueMemHandler_entries t cmp f vf s1 es g Htab1)
    as (s2 & Hrun2 & Htab2 & Htr2 & _ & Hq2 & _).
  destruct (table_insert_front t cmp f g s2 es k v Htab2 ltac:(clear - Hq Hq1 Hq2; lia))
    as (s3 & Hrun3 & Htab3 & Htr3 & _).
  destruct (table_remove_all t cmp f g s3 ((k, v) :: es) k fuel Htab3 Hfuel)
    as (s4 & Hrun4 & Htab4 & Htr4 & _).
  assert (Hm : matches cmp k (k, v) = true).
  { unfold matches. cbn [fst]. rewrite Hrefl. reflexivity. }
  exists s1, s2, s3, s4, (flat_map (remove_events cmp f g k) ((k, v) :: es)).
  repeat (split; [assumption|]). split; [|split].
  - rewrite filter_cons_False in Htab4 by (unfold survives; rewrite Hm; discriminate).
    rewrite filter_survives_all in Htab4 by exact Hnone. exact Htab4.
  - rewrite Htr4, Htr3, Htr2, Htr1. reflexivity.
  - rewrite remove_events_destructors. rewrite filter_cons_True by exact Hm.
    rewrite filter_matches_none by exact Hnone. cbn [flat_map]. rewrite app_nil_r.
    unfold destroy_events. cbn [fst snd].
    destruct f; [contradiction| |]; destruct g; first [contradiction | reflexivity].
Qed.

Lemma registered_destructors_called_once_witness :
  exists s1 s2 s3 s4 evs,
    table_setKeyMemHandler Scenario.tA (FUser 1) Scenario.sA = Done tt s1 /\
    table_setValueMemHandler Scenario.tA (FUser 2) s1 = Done tt s2 /\
    table_insert Scenario.tA 7 100 s2 = Done tt s3 /\
    table_remove 5 Scenario.tA 7 s3 = Done tt s4 /\
    table_is s4 Scenario.tA Scenario.numcmp (FUser 1) (FUser 2) [(3, 99); (2, 98); (1, 97)] /\
    trace s4 = trace Scenario.sA ++ evs /\
    filter (fun ev => is_destructor_call ev = true) evs =
      [EvKeyFree (FUser 1) 7; EvValueFree (FUser 2) 100].
Proof.
  apply (registered_destructors_called_once Scenario.sA Scenario.tA Scenario.numcmp
           FNull FNull [(3, 99); (2, 98); (1, 97)] (FUser 1) (FUser 2) 7 100 5%nat).
  - exact ScenarioFacts.sA_table.
  - discriminate.
  - discriminate.
  - repeat constructor.
  - reflexivity.
  - vm_compute. lia.
  - cbn. lia.
Defined.

(** X10.  Creating a table and destroying it right away leaves no object
    behind: the heap is the one before the creation, the allocator has its
    three objects back, and no external call has been made. *)
Theorem create_then_free_restores_heap s cmp fuel :
  heap_ok s ->
  (3 <= quota s)%nat ->
  (0 < fuel)%nat ->
  exists t s1 s2,
    table_create cmp s = Done t s1 /\
    t <> NULL /\
    table_free fuel t s1 = Done tt s2 /\
    heap s2 = heap s /\ quota s2 = quota s /\ trace s2 = trace s.
Proof.
  intros Hok Hq Hfuel.
  destruct (table_create_frame s cmp Hok Hq) as (s1 & Hrun1 & Hrep & Htr & Hq1 & Hframe).
  pose proof (table_free_empty_run _ _ _ _ _ _ _ _ fuel Hrep Hfuel) as Hrun2.
  eexists (brk s), s1, _. split; [exact Hrun1|].
  split; [exact (rep_t_nonnull _ _ _ _ _ _ _ _ _ _ Hrep)|].
  split; [exact Hrun2|]. cbn [heap brk quota trace].
  split; [|split; [clear - Hq1; lia | exact Htr]].
  apply map_eq. intros a.
  destruct (decide (a = brk s)) as [->|Ha0].
  { rewrite lookup_delete_eq. symmetry. apply heap_ok_beyond; [exact Hok | clear; lia]. }
  rewrite lookup_delete_ne by congruence.
  destruct (decide (a = brk s + 1)) as [->|Ha1].
  { rewrite lookup_delete_eq. symmetry. apply heap_ok_beyond; [exact Hok | clear; lia]. }
  rewrite lookup_delete_ne by congruence.
  destruct (decide (a = brk s + 1 + 1)) as [->|Ha2].
  { rewrite lookup_delete_eq. symmetry. apply heap_ok_beyond; [exact Hok | clear; lia]. }
  rewrite lookup_delete_ne by congruence.
  apply Hframe; assumption.
Qed.

Lemma create_then_free_restores_heap_witness :
  exists t s1 s2,
    table_create Scenario.numcmp Scenario.boot = Done t s1 /\
    t <> NULL /\
    table_free 1 t s1 = Done tt s2 /\
    heap s2 = heap Scenario.boot /\ quota s2 = quota Scenario.boot /\
    trace s2 = trace Scenario.boot.
Proof.
  apply (create_then_free_restores_heap Scenario.boot Scenario.numcmp 1%nat).
  - exact ScenarioFacts.boot_ok.
  - vm_compute. lia.
  - lia.
Defined.

(** X11.  Any finite sequence of insert, lookup, remove, isEmpty and
    destructor-registration calls on a well-formed table, with memory for the
    insertions among them, runs without a fault, ends in a well-formed table,
    and gives call by call the answers of the list program [list_calls]; the
    table then holds exactly the list program's entries and destructors. *)
Theorem calls_refine_list_program s t cmp kf vf es calls fuel :
  table_is s t cmp kf vf es ->
  (2 * inserts calls <= quota s)%nat ->
  (length es + inserts calls < fuel)%nat ->
  exists s',
    run_calls fuel t calls s = Done (list_calls cmp calls (LTable kf vf es)).1 s' /\
    table_is s' t cmp
      (l_keyFree (list_calls cmp calls (LTable kf vf es)).2)
      (l_valueFree (list_calls cmp calls (LTable kf vf es)).2)
      (l_entries (list_calls cmp calls (LTable kf vf es)).2).
Proof.
  intros Htab Hq Hfuel.
  exact (run_calls_list t cmp calls s kf vf es fuel Htab Hq Hfuel).
Qed.

Lemma calls_refine_list_program_witness :
  exists s',
    run_calls 8 Scenario.tA
      [CallLookup 1; CallLookup 9; CallRemove 3; CallIsEmpty; CallInsert 3 99; CallLookup 3]
      Scenario.sA
    = Done (list_calls Scenario.numcmp
              [CallLookup 1; CallLookup 9; CallRemove 3; CallIsEmpty; CallInsert 3 99;
               CallLookup 3]
              (LTable FNull FNull [(3, 99); (2, 98); (1, 97)])).1 s' /\
    table_is s' Scenario.tA Scenario.numcmp
      (l_keyFree (list_calls Scenario.numcmp
              [CallLookup 1; CallLookup 9; CallRemove 3; CallIsEmpty; CallInsert 3 99;
               CallLookup 3]
              (LTable FNull FNull [(3, 99); (2, 98); (1, 97)])).2)
      (l_valueFree (list_calls Scenario.numcmp
              [CallLookup 1; CallLookup 9; CallRemove 3; CallIsEmpty; CallInsert 3 99;
               CallLookup 3]
              (LTable FNull FNull [(3, 99); (2, 98); (1, 97)])).2)
      (l_entries (list_calls Scenario.numcmp
              [CallLookup 1; CallLookup 9; CallRemove 3; CallIsEmpty; CallInsert 3 99;
               CallLookup 3]
              (LTable FNull FNull [(3, 99); (2, 98); (1, 97)])).2).
Proof.
  apply (calls_refine_list_program Scenario.sA Scenario.tA Scenario.numcmp FNull FNull
           [(3, 99); (2, 98); (1, 97)]
           [CallLookup 1; CallLookup 9; CallRemove 3; CallIsEmpty; CallInsert 3 99;
            CallLookup 3] 8%nat).
  - exact ScenarioFacts.sA_table.
  - vm_compute. lia.
  - cbn. lia.
Defined.

(** X12.  A lookup that hits the front entry makes the table lose that
    entry for good: a [table_free] afterwards calls no destructor on its key
    or value and releases two objects fewer than a [table_free] of the
    untouched table would. *)
Theorem front_hit_leaks_entry s t cmp kf vf e rest key fuel :
  table_is s t cmp kf vf (e :: rest) ->
  matches cmp key e = true ->
  (S (length rest) < fuel)%nat ->
  exists s1 s2 s3,
    table_lookup fuel t key s = Done e.2 s1 /\
    table_free fuel t s1 = Done tt s2 /\
    table_free fuel t s = Done tt s3 /\
    trace s2 = trace s ++ [EvCompare e.1 key] ++ flat_map (destroy_events kf vf) rest /\
    trace s3 = trace s ++ destroy_events kf vf e ++ flat_map (destroy_events kf vf) rest /\
    quota s3 = (quota s2 + 2)%nat.
Proof.
  intros Htab Hm Hfuel.
  destruct (table_lookup_front t cmp kf vf s e rest key fuel Htab Hm ltac:(clear - Hfuel; lia))
    as (s1 & Hrun1 & Htab1 & Htr1 & _ & Hq1).
  destruct (table_free_all t cmp kf vf s1 rest fuel Htab1 ltac:(clear - Hfuel; lia))
    as (s2 & Hrun2 & _ & Htr2 & Hq2).
  destruct (table_free_all t cmp kf vf s (e :: rest) fuel Htab Hfuel)
    as (s3 & Hrun3 & _ & Htr3 & Hq3).
  exists s1, s2, s3. repeat (split; [assumption|]). split; [|split].
  - rewrite Htr2, Htr1, <- app_assoc. reflexivity.
  - rewrite Htr3. reflexivity.
  - rewrite Hq3, Hq2, Hq1. cbn [length]. clear. lia.
Qed.

Lemma front_hit_leaks_entry_witness :
  exists s1 s2 s3,
    table_lookup 2 Scenario.tA 1 Scenario.sD = Done 97 s1 /\
    table_free 2 Scenario.tA s1 = Done tt s2 /\
    table_free 2 Scenario.tA Scenario.sD = Done tt s3 /\
    trace s2 = trace Scenario.sD ++ [EvCompare 1 1] ++
      flat_map (destroy_events Scenario.key_destructor Scenario.value_destructor) [] /\
    trace s3 = trace Scenario.sD ++
      destroy_events Scenario.key_destructor Scenario.value_destructor (1, 97) ++
      flat_map (destroy_events Scenario.key_destructor Scenario.value_destructor) [] /\
    quota s3 = (quota s2 + 2)%nat.
Proof.
  apply (front_hit_leaks_entry Scenario.sD Scenario.tA Scenario.numcmp
           Scenario.key_destructor Scenario.value_destructor (1, 97) [] 1 2%nat).
  - exact ScenarioFacts.sD_table.
  - reflexivity.
  - cbn. lia.
Defined.

(** X13.  Removing a key a second time is a no-op: the second
    [table_remove] compares the key with every remaining entry, writes
    nothing to memory, releases nothing and calls no destructor. *)
Theorem remove_twice_is_remove_once s t cmp kf vf es key fuel :
  table_is s t cmp kf vf es ->
  (length es < fuel)%nat ->
  exists s1 s2,
    table_remove fuel t key s = Done tt s1 /\
    table_remove fuel t key s1 = Done tt s2 /\
    heap s2 = heap s1 /\ quota s2 = quota s1 /\
    trace s2 = trace s1 ++ compare_events key (filter (survives cmp key) es) /\
    table_is s2 t cmp kf vf (filter (survives cmp key) es).
Proof.
  intros Htab Hfuel.
  destruct (table_remove_all t cmp kf vf s es key fuel Htab Hfuel)
    as (s1 & Hrun1 & Htab1 & _).
  pose proof (length_filter (survives cmp key) es) as Hlen.
  exists s1, (log (compare_events key (filter (survives cmp key) es)) s1).
  split; [exact Hrun1|]. split.
  - apply (table_remove_nomatch t cmp kf vf); [exact Htab1 | apply filter_survives_no_match|].
    clear - Hfuel Hlen. lia.
  - repeat (split; [reflexivity|]). apply table_is_log. exact Htab1.
Qed.

Lemma remove_twice_is_remove_once_witness :
  exists s1 s2,
    table_remove 4 Scenario.tA 2 Scenario.sA = Done tt s1 /\
    table_remove 4 Scenario.tA 2 s1 = Done tt s2 /\
    heap s2 = heap s1 /\ quota s2 = quota s1 /\
    trace s2 = trace s1 ++
      compare_events 2 (filter (survives Scenario.numcmp 2) [(3, 99); (2, 98); (1, 97)]) /\
    table_is s2 Scenario.tA Scenario.numcmp FNull FNull
      (filter (survives Scenario.numcmp 2) [(3, 99); (2, 98); (1, 97)]).
Proof.
  apply (remove_twice_is_remove_once Scenario.sA Scenario.tA Scenario.numcmp
           FNull FNull [(3, 99); (2, 98); (1, 97)] 2 4%nat).
  - exact ScenarioFacts.sA_table.
  - cbn. lia.
Defined.
